(** * Rate limiter and task service of the task-tracker backend

    Shallow embedding of [src/middleware/rateLimiter.js] (sliding-window
    limiter over the ioredis sorted-set API) and of
    [src/services/task.service.js] with [src/services/redis.service.js]
    (read-through task-list cache, duplicate detection, owner-scoped
    mutations).  Store calls that may fail carry an explicit fault oracle:
    each call pops one boolean, [true] meaning that call rejects. *)

From Stdlib Require Import ZArith Lia List Bool String Ascii Sorted Permutation.
From stdpp Require Import base gmap strings list.
Import ListNotations.
Open Scope string_scope.
Open Scope Z_scope.

(** [Math.ceil(a / b)] for integers [a] and a positive [b]. *)
Definition ceil_div (a b : Z) : Z := - ((- a) / b).

Module RateLimiter.

(** A sorted-set member is the string [`${now}:${Math.random()}`]: the
    timestamp and the random draw. *)
Definition member : Type := (Z * nat)%type.

Definition member_eqb (m1 m2 : member) : bool :=
  Z.eqb m1.1 m2.1 && Nat.eqb m1.2 m2.2.

(** A sorted set: its members with their scores. *)
Definition zset : Type := list (member * Z).

(** The ioredis client as the limiter sees it. *)
Record RedisClient := mkClient {
  status : string;
  zsets : gmap string zset;
  ttls : gmap string Z;
  faults : list bool
}.

Definition with_faults (c : RedisClient) (fs : list bool) : RedisClient :=
  mkClient (status c) (zsets c) (ttls c) fs.

Definition get_zset (c : RedisClient) (key : string) : zset :=
  default [] (zsets c !! key).

(** Redis removes a sorted set (and its expiry) once it is empty. *)
Definition put_zset (c : RedisClient) (key : string) (z : zset) : RedisClient :=
  match z with
  | [] => mkClient (status c) (delete key (zsets c)) (delete key (ttls c)) (faults c)
  | _ => mkClient (status c) (<[key := z]> (zsets c)) (ttls c) (faults c)
  end.

(** Exceptions raised inside the middleware's [try] block. *)
Inductive exn :=
  | RateLimitError (message : string) (retryAfter : Z)
  | StoreError.

(** Response headers set with [res.set], values as the numbers they carry
    (the reset header is the epoch-millisecond instant of the ISO string). *)
Definition headers : Type := list (string * Z).

Record LState := mkL { client : RedisClient; hdrs : headers }.

(** Exception and state monad of the middleware body. *)
Definition M (A : Type) : Type := LState -> (exn + A) * LState.

Definition ret {A} (a : A) : M A := fun s => (inr a, s).
Definition bind {A B} (m : M A) (k : A -> M B) : M B :=
  fun s => match m s with
           | (inl e, s') => (inl e, s')
           | (inr a, s') => k a s'
           end.
Definition throw {A} (e : exn) : M A := fun s => (inl e, s).

Notation "x <- m ;; k" := (bind m (fun x => k))
  (at level 95, m at next level, right associativity).
Notation "m ;;; k" := (bind m (fun _ => k))
  (at level 95, right associativity).

(** [res.set(name, value)]. *)
Definition res_set (name : string) (v : Z) : M unit :=
  fun s => (inr tt, mkL (client s) ((hdrs s ++ [(name, v)])%list)).

(** One awaited client call: it pops the fault oracle and rejects on
    [true], otherwise runs [op] on the store. *)
Definition call {A} (op : RedisClient -> A * RedisClient) : M A :=
  fun s =>
    let c := client s in
    match faults c with
    | true :: fs => (inl StoreError, mkL (with_faults c fs) (hdrs s))
    | _ => let (a, c') := op (with_faults c (tl (faults c))) in
           (inr a, mkL c' (hdrs s))
    end.

(** [zremrangebyscore(key, min, max)]: removes members with
    [min <= score <= max]. *)
Definition zremrangebyscore_c (c : RedisClient) (key : string) (lo hi : Z) : RedisClient :=
  match zsets c !! key with
  | None => c
  | Some z => put_zset c key (List.filter (fun e => negb ((lo <=? e.2) && (e.2 <=? hi))) z)
  end.

Definition zremrangebyscore (key : string) (lo hi : Z) : M unit :=
  call (fun c => (tt, zremrangebyscore_c c key lo hi)).

(** [zcard(key)]. *)
Definition zcard (key : string) : M Z :=
  call (fun c => (Z.of_nat (length (get_zset c key)), c)).

Fixpoint zmin (z : zset) : option (member * Z) :=
  match z with
  | [] => None
  | e :: z' => match zmin z' with
               | None => Some e
               | Some e' => if e'.2 <? e.2 then Some e' else Some e
               end
  end.

(** [zrange(key, 0, 0, 'WITHSCORES')]: the lowest-scored member with its
    score, or the empty reply. *)
Definition zrange_first (key : string) : M (option (member * Z)) :=
  call (fun c => (zmin (get_zset c key), c)).

(** [zadd(key, score, member)]: adds the member or moves it to the score. *)
Definition zadd_c (c : RedisClient) (key : string) (score : Z) (m : member) : RedisClient :=
  put_zset c key
    (List.filter (fun e => negb (member_eqb e.1 m)) (get_zset c key) ++ [(m, score)])%list.

Definition zadd (key : string) (score : Z) (m : member) : M unit :=
  call (fun c => (tt, zadd_c c key score m)).

(** [expire(key, seconds)]: only an existing key gets an expiry. *)
Definition expire_c (c : RedisClient) (key : string) (secs : Z) : RedisClient :=
  match zsets c !! key with
  | None => c
  | Some _ => mkClient (status c) (zsets c) (<[key := secs]> (ttls c)) (faults c)
  end.

Definition expire (key : string) (secs : Z) : M unit :=
  call (fun c => (tt, expire_c c key secs)).

(** [zrem(key, member)]. *)
Definition zrem (c : RedisClient) (key : string) (m : member) : RedisClient :=
  put_zset c key (List.filter (fun e => negb (member_eqb e.1 m)) (get_zset c key)).

(** The parts of an Express request the key generators read. *)
Record Request := mkReq {
  req_ip : string;          (* getClientIp(req) *)
  req_user : option string; (* req.user._id *)
  req_email : option string (* req.body.email *)
}.

Record Options := mkOpts {
  windowMs : Z;
  max : Z;
  message : string;
  keyGenerator : Request -> string;
  skipSuccessfulRequests : bool;
  skipFailedRequests : bool
}.

Definition default_keyGenerator (req : Request) : string :=
  match req_user req with
  | Some id => "user:" ++ id
  | None => "ip:" ++ req_ip req
  end.

(** The [res.send] override installed on admitted requests: it closes over
    [key], [now] and the two skip flags. *)
Record SendHook := mkHook {
  hook_key : string;
  hook_now : Z;
  hook_skipS : bool;
  hook_skipF : bool
}.

(** How the middleware ends: [next()] or [next(error)]. *)
Inductive Outcome :=
  | Next
  | NextErr (e : exn).

(** The [try] block of the middleware once the client is ready. *)
Definition limiter_body (o : Options) (req : Request) (now : Z) (rnd : nat)
  : M (option SendHook) :=
  let key := "ratelimit:" ++ keyGenerator o req in
  let windowStart := now - windowMs o in
  zremrangebyscore key 0 windowStart ;;;
  requestCount <- zcard key ;;
  if max o <=? requestCount then
    oldestRequest <- zrange_first key ;;
    let retryAfter :=
      match oldestRequest with
      | None => ceil_div (windowMs o) 1000
      | Some (_, oldestTimestamp) =>
          ceil_div (oldestTimestamp + windowMs o - now) 1000
      end in
    res_set "Retry-After" retryAfter ;;;
    res_set "X-RateLimit-Limit" (max o) ;;;
    res_set "X-RateLimit-Remaining" 0 ;;;
    res_set "X-RateLimit-Reset" (now + retryAfter * 1000) ;;;
    throw (RateLimitError (message o) retryAfter)
  else
    zadd key now (now, rnd) ;;;
    expire key (ceil_div (windowMs o) 1000) ;;;
    res_set "X-RateLimit-Limit" (max o) ;;;
    res_set "X-RateLimit-Remaining" (Z.max 0 (max o - requestCount - 1)) ;;;
    res_set "X-RateLimit-Reset" (now + windowMs o) ;;;
    ret (if negb (skipSuccessfulRequests o) || negb (skipFailedRequests o)
         then Some (mkHook key now (skipSuccessfulRequests o) (skipFailedRequests o))
         else None).

Record LimiterResult := mkRes {
  outcome : Outcome;
  hook : option SendHook;
  client_after : option RedisClient;
  headers_after : headers
}.

(** [createLimiter(options)] applied to one request at time [now], with
    [rnd] the value of [Math.random()] drawn for the new member. *)
Definition createLimiter (o : Options) (rc : option RedisClient) (req : Request)
    (now : Z) (rnd : nat) : LimiterResult :=
  match rc with
  | None => mkRes Next None rc []
  | Some c =>
      if negb (String.eqb (status c) "ready") then mkRes Next None rc []
      else
        match limiter_body o req now rnd (mkL c []) with
        | (inr h, s) => mkRes Next h (Some (client s)) (hdrs s)
        | (inl (RateLimitError m r), s) =>
            mkRes (NextErr (RateLimitError m r)) None (Some (client s)) (hdrs s)
        | (inl StoreError, s) => mkRes Next None (Some (client s)) (hdrs s)
        end
  end.

(** [v || d] for an optional string: [undefined] and [""] are falsy. *)
Definition or_else (v : option string) (d : string) : string :=
  match v with
  | Some s => if String.eqb s "" then d else s
  | None => d
  end.

(** [authLimiter()]: its key is [auth:<ip>:<req.body.email || 'unknown'>]. *)
Definition authLimiter_options : Options :=
  mkOpts (15 * 60 * 1000) 5 "Too many authentication attempts, please try again later"
    (fun req => "auth:" ++ req_ip req ++ ":" ++ or_else (req_email req) "unknown")
    true false.

(** The binding the identifier [redisClient] resolves to inside the
    [res.send] override: rateLimiter.js declares no such top-level name
    (its module scope holds [RateLimitError] and [RateLimiter]; the
    constructor parameter of that name is not in scope there). *)
Definition module_scope_redisClient : option RedisClient := None.

Inductive SendResult :=
  | Sent
  | SendThrowsReferenceError.

(** The patched [res.send(data)] for a response with [statusCode], where
    [scope] is what [redisClient] resolves to and [rnd'] the fresh
    [Math.random()] drawn for the member passed to [zrem].  The store is
    the one the limiter wrote to. *)
Definition res_send (h : SendHook) (statusCode : Z) (scope : option RedisClient)
    (rnd' : nat) (store : RedisClient) : SendResult * RedisClient :=
  if (hook_skipS h && (statusCode <? 400)) || (hook_skipF h && (400 <=? statusCode)) then
    match scope with
    | None => (SendThrowsReferenceError, store)
    | Some _ =>
        match faults store with
        | true :: fs => (Sent, with_faults store fs)
        | _ => (Sent, zrem (with_faults store (tl (faults store)))
                        (hook_key h) (hook_now h, rnd'))
        end
    end
  else (Sent, store).

End RateLimiter.

Module TaskService.

(** A task document.  [description = None] is a missing or null field. *)
Record Task := mkTask {
  task_id : nat;
  title : string;
  description : option string;
  dueDate : Z;
  status : string;
  owner : string;
  createdAt : Z
}.

(** Backing stores: the task collection in insertion order, the Redis
    cache (payload and TTL in seconds), one fault oracle per store, the
    next ObjectId to hand out and the clock. *)
Record World := mkWorld {
  repo : list Task;
  cache : gmap string (list Task * Z);
  cfaults : list bool;
  rfaults : list bool;
  next_id : nat;
  clock : Z
}.

(** Errors of [src/utils/errors.js] the service throws. *)
Inductive AppError :=
  | ValidationError (msg : string)
  | NotFoundError (msg : string)
  | DuplicateTask (existingTaskId : nat) (duplicateReason : string)
  | DatabaseError (msg : string).

(** Thrown values: an [AppError], a Mongoose validation error raised by
    [save()], a Mongoose CastError raised by a query whose [_id] cannot be
    cast to an ObjectId, or any other repository error. *)
Inductive exn :=
  | App (e : AppError)
  | MongooseValidationError
  | CastError
  | RepositoryError.

(** [req.params.id] as the service receives it: a string Mongoose casts to
    an ObjectId, modelled by the document id it denotes, or a string it
    cannot cast (no route validator checks the id). *)
Inductive TaskIdParam :=
  | ObjectId (n : nat)
  | MalformedId (s : string).

Definition M (A : Type) : Type := World -> (exn + A) * World.

Definition ret {A} (a : A) : M A := fun w => (inr a, w).
Definition bind {A B} (m : M A) (k : A -> M B) : M B :=
  fun w => match m w with
           | (inl e, w') => (inl e, w')
           | (inr a, w') => k a w'
           end.
Definition throw {A} (e : exn) : M A := fun w => (inl e, w).
(** [try { m } catch (error) { h(error) }]. *)
Definition catch {A} (m : M A) (h : exn -> M A) : M A :=
  fun w => match m w with
           | (inl e, w') => h e w'
           | r => r
           end.

Notation "x <- m ;; k" := (bind m (fun x => k))
  (at level 95, m at next level, right associativity).
Notation "m ;;; k" := (bind m (fun _ => k))
  (at level 95, right associativity).

Definition set_cache (w : World) (c : gmap string (list Task * Z)) (cf : list bool) : World :=
  mkWorld (repo w) c cf (rfaults w) (next_id w) (clock w).
Definition set_repo (w : World) (r : list Task) (rf : list bool) : World :=
  mkWorld r (cache w) (cfaults w) rf (next_id w) (clock w).

(** [redisService.get(key)]: a failing call is logged and read as [null]. *)
Definition cache_get (key : string) : M (option (list Task)) :=
  fun w => match cfaults w with
           | true :: fs => (inr None, set_cache w (cache w) fs)
           | _ => (inr (fst <$> cache w !! key), set_cache w (cache w) (tl (cfaults w)))
           end.

(** [redisService.set(key, value, expireInSeconds)]: failures are logged. *)
Definition cache_set (key : string) (v : list Task) (ttl : Z) : M unit :=
  fun w => match cfaults w with
           | true :: fs => (inr tt, set_cache w (cache w) fs)
           | _ => (inr tt, set_cache w (<[key := (v, ttl)]> (cache w)) (tl (cfaults w)))
           end.

(** [redisService.del(key)]: failures are logged. *)
Definition cache_del (key : string) : M unit :=
  fun w => match cfaults w with
           | true :: fs => (inr tt, set_cache w (cache w) fs)
           | _ => (inr tt, set_cache w (delete key (cache w)) (tl (cfaults w)))
           end.

(** [redisService.generateTasksCacheKey(userId)]. *)
Definition generateTasksCacheKey (userId : string) : string := "tasks:" ++ userId.

(** One repository round trip: it pops the repository fault oracle and
    throws on [true]. *)
Definition repo_call {A} (op : list Task -> A * list Task) : M A :=
  fun w => match rfaults w with
           | true :: fs => (inl RepositoryError, set_repo w (repo w) fs)
           | _ => let (a, r) := op (repo w) in (inr a, set_repo w r (tl (rfaults w)))
           end.

(** [.sort({ createdAt: -1 })]: insertion sort, newest first. *)
Fixpoint insert_desc (t : Task) (l : list Task) : list Task :=
  match l with
  | [] => [t]
  | t' :: l' => if createdAt t' <=? createdAt t then t :: l else t' :: insert_desc t l'
  end.
Fixpoint sort_createdAt_desc (l : list Task) : list Task :=
  match l with
  | [] => []
  | t :: l' => insert_desc t (sort_createdAt_desc l')
  end.

(** [Task.find(filter).sort({ createdAt: -1 })]. *)
Definition find_sorted (p : Task -> bool) : M (list Task) :=
  repo_call (fun r => (sort_createdAt_desc (List.filter p r), r)).

(** Casting the [_id] of a query filter: Mongoose throws a CastError
    before any round trip when the id is malformed. *)
Definition cast_id (taskId : TaskIdParam) : M nat :=
  match taskId with
  | ObjectId n => ret n
  | MalformedId _ => throw CastError
  end.

(** [Task.findOne(filter)]: the first match in natural order. *)
Definition findOne (p : Task -> bool) : M (option Task) :=
  repo_call (fun r => (List.find p r, r)).

(** [Task.findOneAndDelete(filter)]. *)
Fixpoint delete_first (p : Task -> bool) (r : list Task) : option Task * list Task :=
  match r with
  | [] => (None, [])
  | t :: r' => if p t then (Some t, r')
               else let (o, r'') := delete_first p r' in (o, t :: r'')
  end.
Definition findOneAndDelete (p : Task -> bool) : M (option Task) :=
  repo_call (delete_first p).

(** Modelled from the spec: the Task schema of src/models/task.model.js
    (not in the sources), whose data model is: title a non-empty string,
    description an optional string stored as given, status one of
    pending | completed, dueDate a timestamp.  [save()] fails with a
    Mongoose validation error when a document breaks it. *)
Definition schema_valid (t : Task) : bool :=
  negb (String.eqb (title t) "") &&
  (String.eqb (status t) "pending" || String.eqb (status t) "completed").

(** [task.save()] of a new document: it is appended to the collection. *)
Definition save_new (t : Task) : M unit :=
  fun w => if schema_valid t then repo_call (fun r => (tt, (r ++ [t])%list)) w
           else (inl MongooseValidationError, w).

(** [task.save()] of a fetched document: it replaces the stored one. *)
Definition save_existing (t : Task) : M unit :=
  fun w => if schema_valid t then
             repo_call (fun r => (tt, map (fun t' => if Nat.eqb (task_id t') (task_id t)
                                                     then t else t') r)) w
           else (inl MongooseValidationError, w).

(** [new Task({...})]: the document gets a fresh ObjectId and its
    creation time. *)
Definition new_task (title0 : string) (desc : option string) (due : Z) (st : string)
    (own : string) : M Task :=
  fun w => (inr (mkTask (next_id w) title0 desc due st own (clock w)),
            mkWorld (repo w) (cache w) (cfaults w) (rfaults w) (S (next_id w)) (clock w)).

(** JavaScript truthiness of an optional string field. *)
Definition truthy (v : option string) : bool :=
  match v with
  | Some s => negb (String.eqb s "")
  | None => false
  end.

(** [v || d] for an optional string field. *)
Definition or_default (v : option string) (d : string) : string :=
  match v with
  | Some s => if String.eqb s "" then d else s
  | None => d
  end.

(** [taskData.description || null]. *)
Definition or_null (v : option string) : option string :=
  if truthy v then v else None.

(** A query value [null] on a field matches a missing or null field. *)
Definition field_matches (q d : option string) : bool :=
  match q, d with
  | None, None => true
  | Some a, Some b => String.eqb a b
  | _, _ => false
  end.

(** The request body of a task creation. *)
Record TaskData := mkTaskData {
  td_title : string;
  td_description : option string;
  td_dueDate : option string;
  td_status : option string
}.

(** An update object: its own keys with their values, in order. *)
Definition Updates : Type := list (string * string).

(** The query string of the filter route. *)
Record Filters := mkFilters {
  f_status : option string;
  f_dueDate : option string
}.

Definition allowedUpdates : list string := ["title"; "description"; "status"; "dueDate"].

Definition DAY_MS : Z := 24 * 60 * 60 * 1000.

(** [similarTask._id.toString() !== exactDuplicate?._id.toString()]. *)
Definition id_differs (a : nat) (b : option nat) : bool :=
  match b with
  | Some b' => negb (Nat.eqb a b')
  | None => true
  end.

Fixpoint assoc (k : string) (l : Updates) : option string :=
  match l with
  | [] => None
  | (k', v) :: l' => if String.eqb k k' then Some v else assoc k l'
  end.

(** [Object.assign(task, updates)] for the text fields; the due date is
    assigned separately once converted. *)
Definition assign_field (t : Task) (kv : string * string) : Task :=
  let (k, v) := kv in
  if String.eqb k "title" then
    mkTask (task_id t) v (description t) (dueDate t) (status t) (owner t) (createdAt t)
  else if String.eqb k "description" then
    mkTask (task_id t) (title t) (Some v) (dueDate t) (status t) (owner t) (createdAt t)
  else if String.eqb k "status" then
    mkTask (task_id t) (title t) (description t) (dueDate t) v (owner t) (createdAt t)
  else t.

Definition set_dueDate (t : Task) (d : Z) : Task :=
  mkTask (task_id t) (title t) (description t) d (status t) (owner t) (createdAt t).

Definition invalidateUserCache (userId : string) : M unit :=
  cache_del (generateTasksCacheKey userId).

(** [getTasks(userId)]. *)
Definition getTasks (userId : string) : M (list Task) :=
  catch
    (let cacheKey := generateTasksCacheKey userId in
     cachedTasks <- cache_get cacheKey ;;
     match cachedTasks with
     | Some l => ret l
     | None =>
         tasks <- find_sorted (fun t => String.eqb (owner t) userId) ;;
         cache_set cacheKey tasks 3600 ;;;
         ret tasks
     end)
    (fun _ => throw (App (DatabaseError "Error fetching tasks"))).

(** [deleteTask(taskId, userId)]. *)
Definition deleteTask (taskId : TaskIdParam) (userId : string) : M Task :=
  catch
    (task <- (id <- cast_id taskId ;;
              findOneAndDelete (fun t => Nat.eqb (task_id t) id && String.eqb (owner t) userId)) ;;
     match task with
     | None => throw (App (NotFoundError "Task not found"))
     | Some t => invalidateUserCache userId ;;; ret t
     end)
    (fun e => match e with
              | App a => throw (App a)
              | CastError => throw (App (ValidationError "Invalid task ID format"))
              | _ => throw (App (DatabaseError "Error deleting task"))
              end).

(** The filter of the exact-duplicate lookup in [createTask]. *)
Definition exact_query (taskData : TaskData) (userId : string) (due : Z) (t : Task) : bool :=
  String.eqb (owner t) userId &&
  String.eqb (title t) (td_title taskData) &&
  field_matches (or_null (td_description taskData)) (description t) &&
  Z.eqb (dueDate t) due &&
  String.eqb (status t) (or_default (td_status taskData) "pending").

(** The filter of the same-title, 24-hour-window lookup in [createTask]. *)
Definition similar_query (taskData : TaskData) (userId : string) (due : Z) (t : Task) : bool :=
  String.eqb (owner t) userId &&
  String.eqb (title t) (td_title taskData) &&
  (due - DAY_MS <=? dueDate t) && (dueDate t <=? due + DAY_MS) &&
  String.eqb (status t) "pending".

Section Operations.

(** [new Date(s)]: the instant a string denotes, if it parses. *)
Variable new_Date : string -> option Z.

(** [new Date(v)] for a field that may be [undefined]. *)
Definition parse_date (v : option string) : option Z :=
  match v with
  | Some s => new_Date s
  | None => None
  end.

(** [createTask(taskData, userId)]. *)
Definition createTask (taskData : TaskData) (userId : string) : M Task :=
  catch
    (match parse_date (td_dueDate taskData) with
     | None => throw (App (ValidationError "Invalid due date format"))
     | Some due =>
         exactDuplicate <- findOne (exact_query taskData userId due) ;;
         match exactDuplicate with
         | Some e => throw (App (DuplicateTask (task_id e) "Exact task match"))
         | None =>
             similarTask <- findOne (similar_query taskData userId due) ;;
             match similarTask with
             | Some sm =>
                 if id_differs (task_id sm) (task_id <$> exactDuplicate)
                 then throw (App (DuplicateTask (task_id sm) "Same title and timeframe"))
                 else ret tt
             | None => ret tt
             end ;;;
             task <- new_task (td_title taskData) (td_description taskData) due
                       (or_default (td_status taskData) "pending") userId ;;
             save_new task ;;;
             invalidateUserCache userId ;;;
             ret task
         end
     end)
    (fun e => match e with
              | App a => throw (App a)
              | MongooseValidationError => throw (App (ValidationError "Invalid input"))
              | CastError | RepositoryError => throw (App (DatabaseError "Error creating task"))
              end).

(** [updateTask(taskId, updates, userId)].  A [dueDate] of [""] is
    assigned as is; Mongoose casts it to [null], which the schema's
    required timestamp refuses at [save()]. *)
Definition updateTask (taskId : TaskIdParam) (updates : Updates) (userId : string) : M Task :=
  catch
    (if negb (forallb (fun k => existsb (String.eqb k) allowedUpdates) (map fst updates))
     then throw (App (ValidationError "Invalid updates"))
     else
       task <- catch (id <- cast_id taskId ;;
                      findOne (fun t => Nat.eqb (task_id t) id && String.eqb (owner t) userId))
                 (fun e => match e with
                           | CastError => throw (App (ValidationError "Invalid task ID format"))
                           | _ => throw (App (DatabaseError "Error updating task"))
                           end) ;;
       match task with
       | None => throw (App (NotFoundError "Task not found"))
       | Some t =>
           due <- match assoc "dueDate" updates with
                  | Some v =>
                      if truthy (Some v) then
                        match new_Date v with
                        | None => throw (App (ValidationError "Invalid due date format"))
                        | Some d => ret (Some (Some d))
                        end
                      else ret (Some None)
                  | None => ret None
                  end ;;
           let t1 := fold_left assign_field updates t in
           match due with
           | Some None => throw MongooseValidationError
           | _ =>
               let t2 := match due with Some (Some d) => set_dueDate t1 d | _ => t1 end in
               save_existing t2 ;;;
               invalidateUserCache userId ;;;
               ret t2
           end
       end)
    (fun e => match e with
              | App a => throw (App a)
              | MongooseValidationError => throw (App (ValidationError "Invalid input"))
              | CastError => throw CastError
              | RepositoryError => throw RepositoryError
              end).

(** [getFilteredTasks(filters, userId)]. *)
Definition getFilteredTasks (filters : Filters) (userId : string) : M (list Task) :=
  catch
    (if truthy (f_status filters) &&
        negb (existsb (String.eqb (or_default (f_status filters) "")) ["pending"; "completed"])
     then ret []
     else
       due <- (if truthy (f_dueDate filters) then
                 match parse_date (f_dueDate filters) with
                 | None => throw (App (ValidationError "Invalid due date format"))
                 | Some d => ret (Some d)
                 end
               else ret None) ;;
       find_sorted (fun t =>
         String.eqb (owner t) userId &&
         (if truthy (f_status filters)
          then String.eqb (status t) (or_default (f_status filters) "") else true) &&
         match due with Some d => dueDate t <=? d | None => true end))
    (fun e => match e with
              | App a => throw (App a)
              | _ => throw (App (DatabaseError "Error fetching tasks"))
              end).

End Operations.

(** A concrete [new Date] for the date-only ISO form [YYYY-MM-DD]
    (midnight UTC, epoch milliseconds); any other string is invalid here.
    Used for concrete runs only: the operations above take [new_Date] as
    a parameter. *)
Definition digit (a : Ascii.ascii) : option Z :=
  let n := Ascii.nat_of_ascii a in
  if (48 <=? n)%nat && (n <=? 57)%nat then Some (Z.of_nat n - 48) else None.

Definition days_from_civil (y m d : Z) : Z :=
  let y' := if m <=? 2 then y - 1 else y in
  let era := y' / 400 in
  let yoe := y' - era * 400 in
  let mp := if 2 <? m then m - 3 else m + 9 in
  let doy := (153 * mp + 2) / 5 + d - 1 in
  let doe := yoe * 365 + yoe / 4 - yoe / 100 + doy in
  era * 146097 + doe - 719468.

Definition iso_date (s : string) : option Z :=
  match s with
  | String y1 (String y2 (String y3 (String y4 (String "-"%char
      (String m1 (String m2 (String "-"%char (String d1 (String d2 EmptyString))))))))) =>
      match digit y1, digit y2, digit y3, digit y4, digit m1, digit m2, digit d1, digit d2 with
      | Some a, Some b, Some c, Some e, Some f, Some g, Some h, Some i =>
          let y := a * 1000 + b * 100 + c * 10 + e in
          let m := f * 10 + g in
          let d := h * 10 + i in
          if (1 <=? m) && (m <=? 12) && (1 <=? d) && (d <=? 31)
          then Some (days_from_civil y m d * DAY_MS) else None
      | _, _, _, _, _, _, _, _ => None
      end
  | _ => None
  end.

End TaskService.

Module RateLimiterFacts.
Import RateLimiter.

(** [limit(max, windowMs)]: the default key generator, no skipping. *)
Definition limit_options (mx w : Z) : Options :=
  mkOpts w mx "Too many requests, please try again later" default_keyGenerator false false.

(** Entries kept by the eviction step: scores outside [[0, now - windowMs]]. *)
Definition survivors (w now : Z) (z : zset) : zset :=
  List.filter (fun e => negb ((0 <=? e.2) && (e.2 <=? now - w))) z.

Example limit_remaining_test :
  let c := mkClient "ready" {[ "ratelimit:ip:127.0.0.1" :=
             map (fun i => ((1000 + Z.of_nat i, i), 1000 + Z.of_nat i)) (seq 0 5) ]} ∅ [] in
  headers_after (createLimiter (limit_options 10 60000) (Some c)
                   (mkReq "127.0.0.1" None None) 30000 7)
  = [("X-RateLimit-Limit", 10); ("X-RateLimit-Remaining", 4);
     ("X-RateLimit-Reset", 90000)].
Proof. reflexivity. Qed.

Lemma zmin_none (z : zset) : zmin z = None <-> z = [].
Proof.
  split; [|intros ->; reflexivity].
  destruct z as [|e z]; [done|]. simpl. destruct (zmin z); [|done].
  destruct (_ <? _); done.
Qed.

Lemma zmin_some (z : zset) e :
  zmin z = Some e -> In e z /\ Forall (fun e' => e.2 <= e'.2) z.
Proof.
  revert e. induction z as [|e0 z IH]; intros e H; [done|].
  simpl in H. destruct (zmin z) as [e1|] eqn:Hz.
  - destruct (IH e1 eq_refl) as [Hin Hall].
    destruct (e1.2 <? e0.2) eqn:Hlt; injection H as <-.
    + apply Z.ltb_lt in Hlt. split; [right; done|].
      constructor; [lia|done].
    + apply Z.ltb_ge in Hlt. split; [left; done|].
      constructor; [lia|]. eapply Forall_impl; [exact Hall|]. intros; simpl in *; lia.
  - apply zmin_none in Hz as ->. injection H as <-.
    split; [left; done|]. constructor; [lia|constructor].
Qed.

Lemma put_zset_get c key z : get_zset (put_zset c key z) key = z.
Proof.
  unfold get_zset, put_zset. destruct z; simpl.
  - by rewrite lookup_delete_eq.
  - by rewrite lookup_insert_eq.
Qed.

Lemma filter_member_fresh (z : zset) m :
  Forall (fun e => member_eqb e.1 m = false) z ->
  List.filter (fun e => negb (member_eqb e.1 m)) z = z.
Proof.
  induction 1 as [|e z He _ IH]; [done|]. simpl. rewrite He. simpl. by rewrite IH.
Qed.

Lemma bind_inr {A B} (m : M A) (k : A -> M B) s a s1 :
  m s = (inr a, s1) -> bind m k s = k a s1.
Proof. intros H. unfold bind. by rewrite H. Qed.

Lemma with_faults_id c : with_faults c (faults c) = c.
Proof. by destruct c. Qed.

(** With an empty fault oracle a call succeeds and runs its operation. *)
Lemma call_run {A} (op : RedisClient -> A * RedisClient) c h :
  faults c = [] ->
  call op (mkL c h) = (inr (op c).1, mkL (op c).2 h).
Proof.
  intros Hf. unfold call. simpl. rewrite Hf. simpl.
  rewrite <- Hf, with_faults_id. by destruct (op c).
Qed.

Lemma res_set_run name v c h :
  res_set name v (mkL c h) = (inr tt, mkL c (h ++ [(name, v)])%list).
Proof. reflexivity. Qed.

Lemma put_zset_faults c key z : faults (put_zset c key z) = faults c.
Proof. by destruct z. Qed.

Lemma zremrangebyscore_c_faults c key lo hi :
  faults (zremrangebyscore_c c key lo hi) = faults c.
Proof. unfold zremrangebyscore_c. destruct (zsets c !! key); [apply put_zset_faults|done]. Qed.

Lemma zremrangebyscore_c_get c key lo hi :
  get_zset (zremrangebyscore_c c key lo hi) key
  = List.filter (fun e => negb ((lo <=? e.2) && (e.2 <=? hi))) (get_zset c key).
Proof.
  unfold zremrangebyscore_c. destruct (zsets c !! key) eqn:E.
  - rewrite put_zset_get. unfold get_zset. by rewrite E.
  - unfold get_zset. by rewrite E.
Qed.

Lemma zadd_c_get c key score m :
  get_zset (zadd_c c key score m) key
  = (List.filter (fun e => negb (member_eqb e.1 m)) (get_zset c key) ++ [(m, score)])%list.
Proof. apply put_zset_get. Qed.

Lemma zadd_c_lookup c key score m :
  zsets (zadd_c c key score m) !! key
  = Some (List.filter (fun e => negb (member_eqb e.1 m)) (get_zset c key) ++ [(m, score)])%list.
Proof.
  unfold zadd_c, put_zset.
  destruct (List.filter _ _ ++ _)%list eqn:E.
  - by destruct (List.filter _ _).
  - simpl. by rewrite lookup_insert_eq.
Qed.

Lemma zadd_c_faults c key score m : faults (zadd_c c key score m) = faults c.
Proof. apply put_zset_faults. Qed.

Lemma expire_c_existing c key secs z :
  zsets c !! key = Some z ->
  zsets (expire_c c key secs) = zsets c /\ ttls (expire_c c key secs) !! key = Some secs.
Proof.
  intros H. unfold expire_c. rewrite H. simpl. split; [done|]. apply lookup_insert_eq.
Qed.

Lemma expire_c_faults c key secs : faults (expire_c c key secs) = faults c.
Proof. unfold expire_c. by destruct (zsets c !! key). Qed.

(** The retry delay the rejection carries, as the claim describes it. *)
Definition retry_spec (w now : Z) (surv : zset) (retry : Z) : Prop :=
  (surv = [] /\ retry = ceil_div w 1000) \/
  (exists e, In e surv /\ Forall (fun e' => e.2 <= e'.2) surv /\
             retry = ceil_div (e.2 + w - now) 1000).

Lemma zmin_retry_spec w now (surv : zset) :
  retry_spec w now surv
    (match zmin surv with
     | None => ceil_div w 1000
     | Some (_, ts) => ceil_div (ts + w - now) 1000
     end).
Proof.
  unfold retry_spec. destruct (zmin surv) as [[m ts]|] eqn:E.
  - right. apply zmin_some in E as [Hin Hall]. exists (m, ts). done.
  - left. apply zmin_none in E. done.
Qed.

(** C1 (amended).  With a ready store whose calls all succeed, the
    limiter first evicts the entries scored in [[0, now - windowMs]]
    (the boundary entry included), then: if at least [max] entries
    survive it rejects with a rate-limit error carrying the retry delay
    computed from the oldest survivor (or [ceil(windowMs/1000)] when none
    is left) and adds no entry; otherwise it adds the entry
    [(now, nonce)], sets the key's expiry to [ceil(windowMs/1000)] and
    reports [max(0, max - count - 1)] remaining with reset [now + windowMs]. *)
Theorem limiter_ready_evaluation o c req now rnd :
  status c = "ready" -> faults c = [] ->
  let key := "ratelimit:" ++ keyGenerator o req in
  let surv := survivors (windowMs o) now (get_zset c key) in
  let r := createLimiter o (Some c) req now rnd in
  if max o <=? Z.of_nat (length surv) then
    (exists retry, outcome r = NextErr (RateLimitError (message o) retry) /\
                   retry_spec (windowMs o) now surv retry) /\
    (exists c', client_after r = Some c' /\ get_zset c' key = surv)
  else
    Forall (fun e => member_eqb e.1 (now, rnd) = false) (get_zset c key) ->
    outcome r = Next /\
    (exists c', client_after r = Some c' /\
       get_zset c' key = (surv ++ [((now, rnd), now)])%list /\
       ttls c' !! key = Some (ceil_div (windowMs o) 1000)) /\
    headers_after r =
      [("X-RateLimit-Limit", max o);
       ("X-RateLimit-Remaining", Z.max 0 (max o - Z.of_nat (length surv) - 1));
       ("X-RateLimit-Reset", now + windowMs o)].
Proof.
  intros Hst Hf key surv r. unfold r, createLimiter. rewrite Hst. simpl.
  unfold limiter_body, zremrangebyscore, zcard, zrange_first, zadd, expire. fold key.
  rewrite (bind_inr _ _ _ _ _ (call_run _ _ _ Hf)). simpl.
  set (c1 := zremrangebyscore_c c key 0 (now - windowMs o)).
  assert (Hf1 : faults c1 = []) by (unfold c1; rewrite zremrangebyscore_c_faults; done).
  rewrite (bind_inr _ _ _ _ _ (call_run _ _ _ Hf1)). simpl.
  assert (Hs1 : get_zset c1 key = surv)
    by (unfold c1; rewrite zremrangebyscore_c_get; reflexivity).
  rewrite Hs1.
  destruct (max o <=? Z.of_nat (length surv)) eqn:Hc.
  - rewrite (bind_inr _ _ _ _ _ (call_run _ _ _ Hf1)). simpl. rewrite Hs1.
    split.
    + eexists. split; [reflexivity|]. apply zmin_retry_spec.
    + exists c1. done.
  - intros Hfresh.
    rewrite (bind_inr _ _ _ _ _ (call_run _ _ _ Hf1)). simpl.
    set (c2 := zadd_c c1 key now (now, rnd)).
    assert (Hf2 : faults c2 = []) by (unfold c2; rewrite zadd_c_faults; done).
    rewrite (bind_inr _ _ _ _ _ (call_run _ _ _ Hf2)). simpl.
    assert (Hz2 : zsets c2 !! key = Some (surv ++ [((now, rnd), now)])%list).
    { unfold c2. rewrite zadd_c_lookup, Hs1. unfold surv, survivors.
      rewrite filter_member_fresh; [done|].
      apply List.Forall_forall. intros e He. apply List.filter_In in He as [He _].
      rewrite List.Forall_forall in Hfresh. by apply Hfresh. }
    split; [reflexivity|]. split; [|reflexivity].
    eexists. split; [reflexivity|].
    destruct (expire_c_existing c2 key (ceil_div (windowMs o) 1000) _ Hz2) as [Hz Ht].
    split; [unfold get_zset; by rewrite Hz, Hz2|exact Ht].
Qed.

(** The calls run between [s] and [s'] consumed only non-failing slots
    of the fault oracle. *)
Definition clean (s s' : LState) : Prop :=
  exists pre, faults (client s) = (pre ++ faults (client s'))%list /\ ~ In true pre.

(** Every run of [m] either raises the store error or consumed no fault. *)
Definition store_error_or_clean {A} (m : M A) : Prop :=
  forall s r s', m s = (r, s') -> r = inl StoreError \/ clean s s'.

Lemma clean_refl s : clean s s.
Proof. exists []. split; [reflexivity|intros []]. Qed.

Lemma clean_trans s1 s2 s3 : clean s1 s2 -> clean s2 s3 -> clean s1 s3.
Proof.
  intros [p1 [E1 N1]] [p2 [E2 N2]]. exists (p1 ++ p2)%list. split.
  - rewrite E1, E2. by rewrite app_assoc.
  - intros Hin. apply in_app_or in Hin as [?|?]; auto.
Qed.

Lemma bind_store_error_or_clean {A B} (m : M A) (k : A -> M B) :
  store_error_or_clean m -> (forall a, store_error_or_clean (k a)) ->
  store_error_or_clean (bind m k).
Proof.
  intros Hm Hk s r s' H. unfold bind in H.
  destruct (m s) as [[e|a] s1] eqn:E.
  - injection H as <- <-. destruct (Hm _ _ _ E) as [He|Hc]; [left; congruence|by right].
  - destruct (Hm _ _ _ E) as [He|Hc]; [discriminate|].
    destruct (Hk a _ _ _ H) as [He|Hc']; [by left|right; by eapply clean_trans].
Qed.

Lemma call_store_error_or_clean {A} (op : RedisClient -> A * RedisClient) :
  (forall c, faults (op c).2 = faults c) -> store_error_or_clean (call op).
Proof.
  intros Hop s r s' H. unfold call in H.
  destruct (faults (client s)) as [|[] fs] eqn:Hf.
  - right. simpl in H. destruct (op _) as [a c'] eqn:Eo. injection H as <- <-.
    exists []. simpl. rewrite Hf. pose proof (Hop (with_faults (client s) [])) as Hc.
    rewrite Eo in Hc. simpl in Hc. rewrite Hc. split; [reflexivity|intros []].
  - left. by injection H as <- <-.
  - right. simpl in H. destruct (op _) as [a c'] eqn:Eo. injection H as <- <-.
    exists [false]. simpl. rewrite Hf. pose proof (Hop (with_faults (client s) fs)) as Hc.
    rewrite Eo in Hc. simpl in Hc. rewrite Hc. split; [done|]. intros [H|H]; done.
Qed.

Lemma res_set_store_error_or_clean name v : store_error_or_clean (res_set name v).
Proof. intros s r s' H. injection H as <- <-. right. exists []. split; [reflexivity|intros []]. Qed.

Lemma throw_store_error_or_clean {A} e : store_error_or_clean (@throw A e).
Proof. intros s r s' H. injection H as <- <-. right. apply clean_refl. Qed.

Lemma ret_store_error_or_clean {A} (a : A) : store_error_or_clean (ret a).
Proof. intros s r s' H. injection H as <- <-. right. apply clean_refl. Qed.

Create HintDb limiter_runs.
#[local] Hint Resolve bind_store_error_or_clean res_set_store_error_or_clean
  throw_store_error_or_clean ret_store_error_or_clean : limiter_runs.

Lemma limiter_body_store_error_or_clean o req now rnd :
  store_error_or_clean (limiter_body o req now rnd).
Proof.
  unfold limiter_body, zremrangebyscore, zcard, zrange_first, zadd, expire.
  apply bind_store_error_or_clean;
    [apply call_store_error_or_clean; intros; apply zremrangebyscore_c_faults|intros _].
  apply bind_store_error_or_clean; [apply call_store_error_or_clean; done|intros n].
  destruct (max o <=? n).
  - apply bind_store_error_or_clean; [apply call_store_error_or_clean; done|intros old].
    repeat (apply bind_store_error_or_clean; [auto with limiter_runs|intros _]).
    auto with limiter_runs.
  - apply bind_store_error_or_clean;
      [apply call_store_error_or_clean; intros; apply zadd_c_faults|intros _].
    apply bind_store_error_or_clean;
      [apply call_store_error_or_clean; intros; apply expire_c_faults|intros _].
    repeat (apply bind_store_error_or_clean; [auto with limiter_runs|intros _]).
    auto with limiter_runs.
Qed.

Lemma firstn_consumed (pre rest : list bool) :
  firstn (length (pre ++ rest) - length rest) (pre ++ rest) = pre.
Proof.
  rewrite length_app. replace (length pre + length rest - length rest)%nat with (length pre) by lia.
  rewrite firstn_app, firstn_all, Nat.sub_diag. simpl. by rewrite app_nil_r.
Qed.

(** C2.  The limiter fails open: with no client or a client that is not
    ready it calls [next()] and touches nothing; the only error it ever
    passes to [next] is the rate-limit rejection; and once any store call
    made during the evaluation has failed, the request is admitted,
    whatever the recorded window state was. *)
Theorem limiter_fail_open o rc req now rnd :
  let r := createLimiter o rc req now rnd in
  ((forall c, rc = Some c -> status c <> "ready") ->
     outcome r = Next /\ client_after r = rc) /\
  (forall e, outcome r = NextErr e -> exists m ra, e = RateLimitError m ra) /\
  (forall c c', rc = Some c -> client_after r = Some c' ->
     In true (firstn (length (faults c) - length (faults c')) (faults c)) ->
     outcome r = Next).
Proof.
  intros r. unfold r, createLimiter. split; [|split].
  - intros Hnr. destruct rc as [c|]; [|done].
    specialize (Hnr c eq_refl). apply String.eqb_neq in Hnr. by rewrite Hnr.
  - intros e. destruct rc as [c|]; [|done]. destruct (negb _); [done|].
    destruct (limiter_body o req now rnd (mkL c [])) as [[[m ra|]|h] s]; simpl;
      intros H; try discriminate. injection H as <-. eauto.
  - intros c c' -> Hc'. destruct (negb _); [done|].
    destruct (limiter_body o req now rnd (mkL c [])) as [[[m ra|]|h] s] eqn:E; simpl;
      try done.
    simpl in Hc'. injection Hc' as <-.
    destruct (limiter_body_store_error_or_clean o req now rnd _ _ _ E) as [H|[pre [Hpre Hn]]];
      [discriminate|].
    simpl in Hpre. rewrite Hpre, firstn_consumed. intros Hin. by exfalso.
Qed.

(** The entries the claim keeps: those not older than [now - windowMs]. *)
Definition not_older (w now : Z) (z : zset) : zset :=
  List.filter (fun e => now - w <=? e.2) z.

Definition boundary_client : RedisClient :=
  mkClient "ready" {[ "ratelimit:ip:1.2.3.4" := [((40000, 0%nat), 40000)] ]} ∅ [].

(** C1, counterexample.  With [max = 1], [windowMs = 60000] and one entry
    scored exactly [now - windowMs = 40000], that entry is not older than
    [now - windowMs], so one entry survives and the claim requires a
    rejection; the code evicts the boundary score too and admits. *)
Lemma limiter_boundary_entry_evicted :
  max (limit_options 1 60000)
    <= Z.of_nat (length (not_older 60000 100000
                           (get_zset boundary_client "ratelimit:ip:1.2.3.4"))) /\
  outcome (createLimiter (limit_options 1 60000) (Some boundary_client)
             (mkReq "1.2.3.4" None None) 100000 1) = Next.
Proof. split; [vm_compute; discriminate|reflexivity]. Qed.

Definition witness_client : RedisClient :=
  mkClient "ready" {[ "ratelimit:ip:1.2.3.4" := [((30000, 0%nat), 30000); ((90000, 1%nat), 90000)] ]} ∅ [].

Lemma limiter_ready_evaluation_witness :
  status witness_client = "ready" /\ faults witness_client = [] /\
  outcome (createLimiter (limit_options 5 60000) (Some witness_client)
             (mkReq "1.2.3.4" None None) 100000 7) = Next.
Proof.
  split; [reflexivity|]. split; [reflexivity|].
  pose proof (limiter_ready_evaluation (limit_options 5 60000) witness_client
                (mkReq "1.2.3.4" None None) 100000 7 eq_refl eq_refl) as H.
  vm_compute in H. vm_compute.
  apply (proj1 (H ltac:(repeat constructor))).
Defined.

Lemma limiter_fail_open_witness :
  outcome (createLimiter (limit_options 5 60000)
             (Some (mkClient "end" ∅ ∅ [])) (mkReq "1.2.3.4" None None) 100000 7) = Next.
Proof.
  refine (proj1 (proj1 (limiter_fail_open (limit_options 5 60000)
                         (Some (mkClient "end" ∅ ∅ [])) (mkReq "1.2.3.4" None None) 100000 7) _)).
  intros c Hc. injection Hc as <-. discriminate.
Defined.

Definition auth_request : Request := mkReq "10.0.0.1" None (Some "a@b.c").
Definition empty_ready_client : RedisClient := mkClient "ready" ∅ ∅ [].

(** C9 (evaluation at the failing input).  A first login attempt through
    [authLimiter()] is admitted and adds the entry [(now, 1)].  When the
    handler then sends a 200 response, the [res.send] override reaches the
    removal branch, but the identifier [redisClient] is unbound in the
    module, so it throws a ReferenceError and the entry stays.  Even with
    a client bound to that name, [zrem] would target the member built
    from a fresh [Math.random()] draw ([2] here), and the entry would still
    stay. *)
Theorem auth_success_entry_kept :
  let now := 1700000000000 in
  let key := "ratelimit:auth:10.0.0.1:a@b.c" in
  let r := createLimiter authLimiter_options (Some empty_ready_client) auth_request now 1 in
  outcome r = Next /\
  exists h c1, hook r = Some h /\ client_after r = Some c1 /\
    get_zset c1 key = [((now, 1%nat), now)] /\
    res_send h 200 module_scope_redisClient 2 c1 = (SendThrowsReferenceError, c1) /\
    get_zset (res_send h 200 (Some c1) 2 c1).2 key = [((now, 1%nat), now)].
Proof.
  intros now key r. split; [reflexivity|].
  do 2 eexists. split; [reflexivity|]. split; [reflexivity|].
  split; [reflexivity|]. split; reflexivity.
Qed.

(** Whatever [redisClient] resolves to, the override never removes an
    entry whose random part differs from its fresh draw. *)
Lemma res_send_keeps_entry h status scope rnd rnd' c score :
  rnd' <> rnd ->
  In ((hook_now h, rnd), score) (get_zset c (hook_key h)) ->
  In ((hook_now h, rnd), score) (get_zset (res_send h status scope rnd' c).2 (hook_key h)).
Proof.
  intros Hne Hin. unfold res_send.
  destruct (_ || _); [|done]. destruct scope as [sc|]; [|done].
  destruct (faults c) as [|[] fs] eqn:Hf; simpl.
  1,3: unfold zrem; rewrite put_zset_get; apply List.filter_In; split;
       [unfold get_zset in *; simpl; done|
        unfold member_eqb; simpl; rewrite Z.eqb_refl; simpl;
        apply Nat.eqb_neq in Hne; rewrite Nat.eqb_sym, Hne; done].
  unfold get_zset in *. simpl. done.
Qed.

End RateLimiterFacts.

Module TaskServiceFacts.
Import TaskService.

Definition empty_world : World := mkWorld [] ∅ [] [] 1 1000.

Definition pay_rent : TaskData := mkTaskData "Pay rent" None (Some "2025-12-31") (Some "pending").

Example iso_date_test : iso_date "2025-12-31" = Some 1767139200000.
Proof. reflexivity. Qed.

(** The concrete scenario of the duplicate policy: the second identical
    creation for U1 is refused with the first task's id; U2 may create it. *)
Example pay_rent_scenario :
  let (r1, w1) := createTask iso_date pay_rent "U1" empty_world in
  r1 = inr (mkTask 1 "Pay rent" None 1767139200000 "pending" "U1" 1000) /\
  fst (createTask iso_date pay_rent "U1" w1) = inl (App (DuplicateTask 1 "Exact task match")) /\
  fst (createTask iso_date pay_rent "U2" w1)
    = inr (mkTask 2 "Pay rent" None 1767139200000 "pending" "U2" 1000).
Proof. vm_compute. split; [reflexivity|split; reflexivity]. Qed.





Lemma find_none_forall {A} (p : A -> bool) l :
  List.find p l = None <-> (forall x, In x l -> p x = false).
Proof.
  split; [apply List.find_none|].
  induction l as [|y l IH]; intros H; simpl; [done|].
  rewrite (H y (or_introl eq_refl)). apply IH. intros x Hx. apply H. by right.
Qed.





(** The world with every task of id [taskId] removed: that task does not
    exist there. *)
Definition drop_task (taskId : nat) (w : World) : World :=
  set_repo w (List.filter (fun t => negb (Nat.eqb (task_id t) taskId)) (repo w)) (rfaults w).

Lemma delete_first_none (p : Task -> bool) r :
  (forall x, In x r -> p x = false) -> delete_first p r = (None, r).
Proof.
  induction r as [|y r IH]; intros H; simpl; [done|].
  rewrite (H y (or_introl eq_refl)), IH; [done|]. intros x Hx. apply H. by right.
Qed.

Lemma owned_query_none taskId u (r : list Task) :
  (forall t, In t r -> task_id t = taskId -> owner t <> u) ->
  forall x, In x r -> (Nat.eqb (task_id x) taskId && String.eqb (owner x) u) = false.
Proof.
  intros H x Hx. destruct (Nat.eqb_spec (task_id x) taskId) as [E|E]; [|done].
  simpl. apply String.eqb_neq. by apply H.
Qed.

Lemma owned_query_none_dropped taskId u (r : list Task) :
  forall x, In x (List.filter (fun t => negb (Nat.eqb (task_id t) taskId)) r) ->
  (Nat.eqb (task_id x) taskId && String.eqb (owner x) u) = false.
Proof.
  intros x Hx. apply List.filter_In in Hx as [_ Hx].
  destruct (Nat.eqb (task_id x) taskId); done.
Qed.

(** C6.  When the task [taskId] (a well-formed id) exists only under other owners,
    [updateTask] and [deleteTask] answer exactly as when the task does not
    exist at all, return no task data and leave the collection as it
    was; [deleteTask] answers not-found (or the data-access error of a
    failing repository). *)
Theorem ownership_isolation nd taskId (upd : Updates) u w :
  (forall t, In t (repo w) -> task_id t = taskId -> owner t <> u) ->
  let w0 := drop_task taskId w in
  fst (updateTask nd (ObjectId taskId) upd u w) = fst (updateTask nd (ObjectId taskId) upd u w0) /\
  repo (snd (updateTask nd (ObjectId taskId) upd u w)) = repo w /\
  (forall t, fst (updateTask nd (ObjectId taskId) upd u w) <> inr t) /\
  fst (deleteTask (ObjectId taskId) u w) = fst (deleteTask (ObjectId taskId) u w0) /\
  repo (snd (deleteTask (ObjectId taskId) u w)) = repo w /\
  (fst (deleteTask (ObjectId taskId) u w) = inl (App (NotFoundError "Task not found")) \/
   fst (deleteTask (ObjectId taskId) u w) = inl (App (DatabaseError "Error deleting task"))).
Proof.
  intros Hown w0.
  pose proof (proj2 (find_none_forall _ _) (owned_query_none taskId u (repo w) Hown)) as F1.
  pose proof (proj2 (find_none_forall _ _) (owned_query_none_dropped taskId u (repo w))) as F2.
  pose proof (delete_first_none _ _ (owned_query_none taskId u (repo w) Hown)) as D1.
  pose proof (delete_first_none _ _ (owned_query_none_dropped taskId u (repo w))) as D2.
  unfold w0, drop_task. destruct w as [r c cf rf n k]. simpl in *.
  unfold updateTask, deleteTask, cast_id, ret, catch, bind, findOne, findOneAndDelete, repo_call. simpl.
  destruct (negb _); simpl.
  - destruct rf as [|[] rf']; simpl; rewrite ?D1, ?D2;
      repeat split; try (intros ? ?; discriminate); auto.
  - destruct rf as [|[] rf']; simpl; rewrite ?F1, ?F2, ?D1, ?D2;
      repeat split; try (intros ? ?; discriminate); auto.
Qed.

(** Newest-first order on creation time. *)
Definition newer_first (a b : Task) : Prop := createdAt b <= createdAt a.

Lemma insert_desc_perm t l : Permutation (insert_desc t l) (t :: l).
Proof.
  induction l as [|t' l IH]; simpl; [done|].
  destruct (createdAt t' <=? createdAt t); [done|].
  etransitivity; [apply perm_skip, IH|apply perm_swap].
Qed.

Lemma sort_createdAt_desc_perm l : Permutation (sort_createdAt_desc l) l.
Proof.
  induction l as [|t l IH]; simpl; [done|].
  etransitivity; [apply insert_desc_perm|by apply perm_skip].
Qed.

Lemma insert_desc_hdrel a t l :
  HdRel newer_first a l -> newer_first a t -> HdRel newer_first a (insert_desc t l).
Proof.
  intros H Hat. destruct l as [|b l]; simpl; [by constructor|].
  destruct (createdAt b <=? createdAt t); constructor; [done|]. by inversion H.
Qed.

Lemma insert_desc_sorted t l :
  Sorted newer_first l -> Sorted newer_first (insert_desc t l).
Proof.
  induction 1 as [|a l Hs IH Hhd]; simpl; [repeat constructor|].
  destruct (createdAt a <=? createdAt t) eqn:E.
  - constructor; [by constructor|]. constructor. unfold newer_first. lia.
  - apply Z.leb_gt in E. constructor; [done|].
    apply insert_desc_hdrel; [done|]. unfold newer_first. lia.
Qed.

Lemma sort_createdAt_desc_sorted l : Sorted newer_first (sort_createdAt_desc l).
Proof.
  induction l as [|t l IH]; simpl; [constructor|]. by apply insert_desc_sorted.
Qed.

(** The owner's tasks as the repository returns them. *)
Definition owner_tasks (u : string) (r : list Task) : list Task :=
  sort_createdAt_desc (List.filter (fun t => String.eqb (owner t) u) r).

(** C7.  [getTasks] reads [tasks:<ownerId>]: on a hit it returns the
    cached list without touching the repository; on a miss (or a failing
    cache read) it returns the owner's tasks newest first, caching them
    for 3600 seconds when the cache write succeeds and returning them
    anyway when it fails; a failing repository call yields the
    data-access error. *)
Theorem getTasks_read_through u w :
  let key := generateTasksCacheKey u in
  let fresh := owner_tasks u (repo w) in
  (forall l ttl, hd_error (cfaults w) <> Some true -> cache w !! key = Some (l, ttl) ->
     fst (getTasks u w) = inr l /\ repo (snd (getTasks u w)) = repo w /\
     rfaults (snd (getTasks u w)) = rfaults w) /\
  ((cache w !! key = None \/ hd_error (cfaults w) = Some true) ->
     (hd_error (rfaults w) <> Some true ->
        fst (getTasks u w) = inr fresh /\
        (hd_error (tl (cfaults w)) <> Some true ->
           cache (snd (getTasks u w)) !! key = Some (fresh, 3600))) /\
     (hd_error (rfaults w) = Some true ->
        fst (getTasks u w) = inl (App (DatabaseError "Error fetching tasks")))) /\
  Sorted newer_first fresh /\
  Permutation fresh (List.filter (fun t => String.eqb (owner t) u) (repo w)).
Proof.
  intros key fresh.
  split; [|split; [|split; [apply sort_createdAt_desc_sorted|apply sort_createdAt_desc_perm]]].
  - intros l ttl Hcf Hc. destruct w as [r c cf rf n k]. simpl in *.
    unfold getTasks, catch, bind, cache_get. fold key.
    destruct cf as [|[] cf']; simpl in *; try congruence; rewrite Hc; simpl; auto.
  - intros Hmiss. destruct w as [r c cf rf n k]. simpl in *.
    unfold getTasks, catch, bind, cache_get, find_sorted, repo_call, cache_set. fold key.
    destruct cf as [|[] [|[] cf']]; destruct rf as [|[] rf']; simpl in *;
      (destruct Hmiss as [Hm|Hm]; [rewrite ?Hm|try discriminate]); simpl;
      (split; intros Hrf; simpl in *; try congruence;
       try (split; [reflexivity|intros Hcf; simpl in *; try congruence;
                                 by rewrite lookup_insert_eq]));
      reflexivity.
Qed.












Lemma find_sorted_result p w l w' :
  find_sorted p w = (inr l, w') -> forall t, In t l -> p t = true.
Proof.
  unfold find_sorted, repo_call.
  destruct (rfaults w) as [|[] ?]; simpl; try discriminate;
    intros H; injection H as <- <-; intros t Ht;
    apply (Permutation_in t (sort_createdAt_desc_perm _)) in Ht;
    by apply List.filter_In in Ht as [_ ?].
Qed.

(** An empty status filter ([?status=]) is ignored: the call is the one
    without a status filter. *)
Lemma getFilteredTasks_empty_status nd filters u w :
  f_status filters = Some "" ->
  getFilteredTasks nd filters u w = getFilteredTasks nd (mkFilters None (f_dueDate filters)) u w.
Proof. intros Hs. unfold getFilteredTasks. rewrite Hs. reflexivity. Qed.

(** An empty due-date filter ([?dueDate=]) is ignored. *)
Lemma getFilteredTasks_empty_dueDate nd filters u w :
  f_dueDate filters = Some "" ->
  getFilteredTasks nd filters u w = getFilteredTasks nd (mkFilters (f_status filters) None) u w.
Proof. intros Hd. unfold getFilteredTasks. rewrite Hd. reflexivity. Qed.

(** A valid status filter without a due date returns the owner's tasks
    with that status, newest first. *)
Lemma getFilteredTasks_status_only nd filters u w s :
  (s = "pending" \/ s = "completed") -> f_status filters = Some s ->
  truthy (f_dueDate filters) = false -> hd_error (rfaults w) <> Some true ->
  fst (getFilteredTasks nd filters u w)
  = inr (sort_createdAt_desc
           (List.filter (fun t => String.eqb (owner t) u && String.eqb (status t) s) (repo w))).
Proof.
  intros Hsv Hs Hd Hr. unfold getFilteredTasks, catch, bind. rewrite Hs, Hd.
  destruct w as [rp c cf rf n k]; simpl in Hr.
  unfold find_sorted, repo_call.
  destruct Hsv as [-> | ->]; simpl;
  destruct rf as [|[] rf]; simpl in *; try congruence;
  (erewrite List.filter_ext; [reflexivity|]); intros t; by rewrite andb_true_r.
Qed.

(** C8 (amended).  [getFilteredTasks] only returns tasks of the owner.  A
    status filter that is a non-empty string other than "pending" and
    "completed" yields the empty list before the due date is looked at.
    Otherwise a non-empty due-date filter that does not parse fails
    validation, and one that parses bounds the due dates of the results.
    Empty or absent filters are ignored: with neither, the owner's tasks
    come back; an empty one gives the same call as an absent one; a valid
    status with no or an empty due date gives the owner's tasks with that
    status. *)
Theorem filtered_tasks_scoping nd filters u w :
  let r := fst (getFilteredTasks nd filters u w) in
  let status_ok := f_status filters = None \/ f_status filters = Some "" \/
                   f_status filters = Some "pending" \/ f_status filters = Some "completed" in
  (forall l, r = inr l -> forall t, In t l -> owner t = u) /\
  ((exists s, f_status filters = Some s /\ s <> "" /\ s <> "pending" /\ s <> "completed") ->
   r = inr []) /\
  (status_ok -> truthy (f_dueDate filters) = true ->
   parse_date nd (f_dueDate filters) = None ->
   r = inl (App (ValidationError "Invalid due date format"))) /\
  (forall d, status_ok -> truthy (f_dueDate filters) = true ->
   parse_date nd (f_dueDate filters) = Some d ->
   forall l, r = inr l -> forall t, In t l -> dueDate t <= d) /\
  (truthy (f_status filters) = false -> truthy (f_dueDate filters) = false ->
   hd_error (rfaults w) <> Some true -> r = inr (owner_tasks u (repo w))) /\
  (f_status filters = Some "" ->
   getFilteredTasks nd filters u w = getFilteredTasks nd (mkFilters None (f_dueDate filters)) u w) /\
  (f_dueDate filters = Some "" ->
   getFilteredTasks nd filters u w = getFilteredTasks nd (mkFilters (f_status filters) None) u w) /\
  (forall s, (s = "pending" \/ s = "completed") -> f_status filters = Some s ->
   truthy (f_dueDate filters) = false -> hd_error (rfaults w) <> Some true ->
   r = inr (sort_createdAt_desc
              (List.filter (fun t => String.eqb (owner t) u && String.eqb (status t) s) (repo w)))).
Proof.
  intros r status_ok.
  pose proof (getFilteredTasks_empty_status nd filters u w) as H6.
  pose proof (getFilteredTasks_empty_dueDate nd filters u w) as H7.
  pose proof (getFilteredTasks_status_only nd filters u w) as H8.
  unfold r.
  split; [|split; [|split; [|split; [|split; [|split; [exact H6|split; [exact H7|exact H8]]]]]]].
  all: unfold getFilteredTasks, catch, bind.
  - intros l. destruct (_ && _); [intros H; injection H as <-; done|].
    destruct (truthy (f_dueDate filters)).
    + destruct (parse_date nd (f_dueDate filters)); simpl; [|discriminate].
      destruct (find_sorted _ w) as [[e|l'] w'] eqn:E; [by destruct e|].
      intros H; injection H as <-. intros t Ht.
      apply (find_sorted_result _ _ _ _ E) in Ht.
      apply andb_true_iff in Ht as [Ht _]. apply andb_true_iff in Ht as [Ht _].
      by apply String.eqb_eq.
    + simpl. destruct (find_sorted _ w) as [[e|l'] w'] eqn:E; [by destruct e|].
      intros H; injection H as <-. intros t Ht.
      apply (find_sorted_result _ _ _ _ E) in Ht.
      apply andb_true_iff in Ht as [Ht _]. apply andb_true_iff in Ht as [Ht _].
      by apply String.eqb_eq.
  - intros (s & Hs & H1 & H2 & H3). rewrite Hs. unfold truthy, or_default.
    apply String.eqb_neq in H1, H2, H3. simpl.
    rewrite H1, H2, H3. reflexivity.
  - intros Hok Ht Hp. rewrite Ht, Hp.
    replace (truthy (f_status filters) && _) with false; [reflexivity|].
    destruct Hok as [-> | [-> | [-> | ->]]]; reflexivity.
  - intros d Hok Ht Hp l. rewrite Ht, Hp.
    replace (truthy (f_status filters) && _) with false;
      [|destruct Hok as [-> | [-> | [-> | ->]]]; reflexivity].
    simpl. destruct (find_sorted _ w) as [[e|l'] w'] eqn:E; [by destruct e|].
    intros H; injection H as <-. intros t Hin.
    apply (find_sorted_result _ _ _ _ E) in Hin.
    apply andb_true_iff in Hin as [_ Hin]. by apply Z.leb_le.
  - intros Hs Hd Hr. rewrite Hs, Hd. simpl.
    unfold find_sorted, repo_call. destruct w as [rp c cf rf n k]. simpl in *.
    destruct rf as [|[] rf]; simpl in *; try congruence;
      unfold owner_tasks;
      (erewrite List.filter_ext; [reflexivity|]); intros t; by rewrite !andb_true_r.
Qed.

Definition one_task_world : World :=
  mkWorld [mkTask 1 "Pay rent" None 1767139200000 "pending" "U1" 1000] ∅ [] [] 2 1000.

(** C8, counterexample.  A present but empty status filter ([?status=])
    does not yield the empty list: it is ignored and U1's task comes back.
    With an invalid status and an unparsable due date together, the call
    returns the empty list instead of failing validation. *)
Lemma filter_empty_and_invalid_status :
  fst (getFilteredTasks iso_date (mkFilters (Some "") None) "U1" one_task_world)
    = inr [mkTask 1 "Pay rent" None 1767139200000 "pending" "U1" 1000] /\
  iso_date "not-a-date" = None /\
  fst (getFilteredTasks iso_date (mkFilters (Some "archived") (Some "not-a-date")) "U1"
         one_task_world) = inr [].
Proof. vm_compute. repeat split; reflexivity. Qed.








(** C6 at a concrete input: U2 tries to update and delete U1's task 1. *)
Lemma ownership_isolation_witness :
  (forall t, In t (repo one_task_world) -> task_id t = 1%nat -> owner t <> "U2") /\
  (let w0 := drop_task 1%nat one_task_world in
  fst (updateTask iso_date (ObjectId 1) [("title", "Hijacked")] "U2" one_task_world) = fst (updateTask iso_date (ObjectId 1) [("title", "Hijacked")] "U2" w0) /\
  repo (snd (updateTask iso_date (ObjectId 1) [("title", "Hijacked")] "U2" one_task_world)) = repo one_task_world /\
  (forall t, fst (updateTask iso_date (ObjectId 1) [("title", "Hijacked")] "U2" one_task_world) <> inr t) /\
  fst (deleteTask (ObjectId 1) "U2" one_task_world) = fst (deleteTask (ObjectId 1) "U2" w0) /\
  repo (snd (deleteTask (ObjectId 1) "U2" one_task_world)) = repo one_task_world /\
  (fst (deleteTask (ObjectId 1) "U2" one_task_world) = inl (App (NotFoundError "Task not found")) \/
   fst (deleteTask (ObjectId 1) "U2" one_task_world) = inl (App (DatabaseError "Error deleting task")))).
Proof.
  split.
  - simpl. intros t [<- | []] _. discriminate.
  - apply (ownership_isolation iso_date 1 [("title", "Hijacked")] "U2" one_task_world).
    simpl. intros t [<- | []] _. discriminate.
Defined.


End TaskServiceFacts.

(** * The rest of the limiter: client addresses and the preset limiters *)

Module RateLimiterClients.
Import RateLimiter.

(** The parts of an Express request [getClientIp] reads: each header or
    address is [undefined] ([None]) or a string. *)
Record RawRequest := mkRaw {
  h_forwarded_for : option string; (* req.headers['x-forwarded-for'] *)
  h_real_ip : option string;       (* req.headers['x-real-ip'] *)
  connection_addr : option string; (* req.connection?.remoteAddress *)
  socket_addr : option string;     (* req.socket?.remoteAddress *)
  raw_ip : option string;          (* req.ip *)
  raw_user : option string;        (* req.user._id, when req.user is set *)
  raw_email : option string        (* req.body.email *)
}.

(** [a || b] for a string that may be [undefined]: [""] is falsy. *)
Definition js_or (a : option string) (b : string) : string :=
  match a with
  | Some s => if String.eqb s "" then b else s
  | None => b
  end.

(** [s.split(',')[0]]: the text before the first comma. *)
Fixpoint split_first (s : string) : string :=
  match s with
  | EmptyString => EmptyString
  | String c s' => if Ascii.eqb c ","%char then EmptyString else String c (split_first s')
  end.

(** [getClientIp(req)]. *)
Definition getClientIp (req : RawRequest) : string :=
  js_or (option_map split_first (h_forwarded_for req))
    (js_or (h_real_ip req)
      (js_or (connection_addr req)
        (js_or (socket_addr req)
          (js_or (raw_ip req) "unknown")))).

(** The request as the key generators see it. *)
Definition to_request (req : RawRequest) : Request :=
  mkReq (getClientIp req) (raw_user req) (raw_email req).

(** [limit(max, windowMs = 60000)]. *)
Definition limit (mx : Z) (w : option Z) : Options :=
  mkOpts (default 60000 w) mx "Too many requests, please try again later"
    default_keyGenerator false false.

(** [apiLimiter()]. *)
Definition apiLimiter_options : Options :=
  mkOpts (15 * 60 * 1000) 100 "Too many requests from this IP, please try again later"
    default_keyGenerator false false.

(** [taskCreationLimiter()]: the key is [create:user:] followed by
    [req.user?._id || getClientIp(req)]. *)
Definition taskCreationLimiter_options : Options :=
  mkOpts (60 * 1000) 10 "Too many tasks created, please slow down"
    (fun req => "create:user:" ++ js_or (req_user req) (req_ip req))
    false false.

(** Successive requests of one client through one middleware, each at its
    time [now] with its [Math.random()] draw; every request sees the store
    the previous one left. *)
Fixpoint run_requests (o : Options) (c : RedisClient) (req : Request)
    (rs : list (Z * nat)) : list LimiterResult :=
  match rs with
  | [] => []
  | (now, rnd) :: rs' =>
      let r := createLimiter o (Some c) req now rnd in
      r :: run_requests o (default c (client_after r)) req rs'
  end.

End RateLimiterClients.

Module RateLimiterMoreFacts.
Import RateLimiter RateLimiterClients RateLimiterFacts.

Lemma zremrangebyscore_c_status c key lo hi :
  status (zremrangebyscore_c c key lo hi) = status c.
Proof. unfold zremrangebyscore_c, put_zset. destruct (zsets c !! key); [|done]. by destruct (List.filter _ _). Qed.

Lemma zadd_c_status c key score m : status (zadd_c c key score m) = status c.
Proof. unfold zadd_c, put_zset. by destruct (_ ++ _)%list. Qed.

Lemma expire_c_status c key secs : status (expire_c c key secs) = status c.
Proof. unfold expire_c. by destruct (zsets c !! key). Qed.

(** The retry delay of a rejection, from the oldest remaining entry. *)
Definition retry_after (w now : Z) (surv : zset) : Z :=
  match zmin surv with
  | None => ceil_div w 1000
  | Some (_, ts) => ceil_div (ts + w - now) 1000
  end.

(** One evaluation against a ready store whose calls all succeed, in
    closed form. *)
Lemma createLimiter_ready_eval o c req now rnd :
  status c = "ready" -> faults c = [] ->
  let key := "ratelimit:" ++ keyGenerator o req in
  let c1 := zremrangebyscore_c c key 0 (now - windowMs o) in
  let surv := get_zset c1 key in
  createLimiter o (Some c) req now rnd =
  if max o <=? Z.of_nat (length surv) then
    let r := retry_after (windowMs o) now surv in
    mkRes (NextErr (RateLimitError (message o) r)) None (Some c1)
      [("Retry-After", r); ("X-RateLimit-Limit", max o);
       ("X-RateLimit-Remaining", 0); ("X-RateLimit-Reset", now + r * 1000)]
  else
    mkRes Next
      (if negb (skipSuccessfulRequests o) || negb (skipFailedRequests o)
       then Some (mkHook key now (skipSuccessfulRequests o) (skipFailedRequests o))
       else None)
      (Some (expire_c (zadd_c c1 key now (now, rnd)) key (ceil_div (windowMs o) 1000)))
      [("X-RateLimit-Limit", max o);
       ("X-RateLimit-Remaining", Z.max 0 (max o - Z.of_nat (length surv) - 1));
       ("X-RateLimit-Reset", now + windowMs o)].
Proof.
  intros Hst Hf key c1 surv. unfold createLimiter. rewrite Hst. simpl.
  unfold limiter_body, zremrangebyscore, zcard, zrange_first, zadd, expire. fold key.
  rewrite (bind_inr _ _ _ _ _ (call_run _ _ _ Hf)). simpl. fold c1.
  assert (Hf1 : faults c1 = []) by (unfold c1; rewrite zremrangebyscore_c_faults; done).
  rewrite (bind_inr _ _ _ _ _ (call_run _ _ _ Hf1)). simpl. fold surv.
  destruct (max o <=? Z.of_nat (length surv)) eqn:Hc.
  - rewrite (bind_inr _ _ _ _ _ (call_run _ _ _ Hf1)). simpl. fold surv. reflexivity.
  - rewrite (bind_inr _ _ _ _ _ (call_run _ _ _ Hf1)). simpl.
    set (c2 := zadd_c c1 key now (now, rnd)).
    assert (Hf2 : faults c2 = []) by (unfold c2; rewrite zadd_c_faults; done).
    rewrite (bind_inr _ _ _ _ _ (call_run _ _ _ Hf2)). simpl. reflexivity.
Qed.

Lemma ceil_div_pos a : 0 < a -> 1 <= ceil_div a 1000.
Proof.
  intros H. unfold ceil_div.
  assert (- a / 1000 <= -1 / 1000) by (apply Z.div_le_mono; lia).
  change (-1 / 1000) with (-1) in H0. lia.
Qed.

Lemma ceil_div_mono a b : a <= b -> ceil_div a 1000 <= ceil_div b 1000.
Proof.
  intros H. unfold ceil_div.
  assert (- b / 1000 <= - a / 1000) by (apply Z.div_le_mono; lia). lia.
Qed.

Lemma filter_all_true {A} (f : A -> bool) l :
  (forall x, In x l -> f x = true) -> List.filter f l = l.
Proof.
  induction l as [|x l IH]; intros H; simpl; [done|].
  rewrite (H x (or_introl eq_refl)), IH; [done|]. intros y Hy. apply H. by right.
Qed.

(** Nothing is evicted when every entry is scored after [now - windowMs]. *)
Lemma zremrangebyscore_c_keep c key w now :
  (forall e, In e (get_zset c key) -> now - w < e.2) ->
  get_zset (zremrangebyscore_c c key 0 (now - w)) key = get_zset c key.
Proof.
  intros H. rewrite zremrangebyscore_c_get. apply filter_all_true.
  intros e He. specialize (H e He). destruct (0 <=? e.2), (e.2 <=? now - w) eqn:E;
    simpl; try done. apply Z.leb_le in E. lia.
Qed.

Lemma get_zset_expire c key secs k : get_zset (expire_c c key secs) k = get_zset c k.
Proof. unfold expire_c, get_zset. by destruct (zsets c !! key). Qed.

Lemma firstn_S_nth {A} (l : list A) k x :
  nth_error l k = Some x -> firstn (S k) l = (firstn k l ++ [x])%list.
Proof.
  revert k. induction l as [|y l IH]; intros [|k] H; simpl in *; try discriminate.
  - by injection H as ->.
  - f_equal. by apply IH.
Qed.

(** A sorted-set entry [(now, nonce)] scored [now]. *)
Definition entry (p : Z * nat) : member * Z := (p, p.1).

Lemma run_requests_cons o c req now rnd rs :
  run_requests o c req ((now, rnd) :: rs)
  = createLimiter o (Some c) req now rnd
    :: run_requests o (default c (client_after (createLimiter o (Some c) req now rnd))) req rs.
Proof. reflexivity. Qed.

Section Burst.
Variables (o : Options) (req : Request) (all : list (Z * nat)) (t1 : Z).
Hypothesis Hnd : NoDup all.
Hypothesis Hfirst : option_map fst (head all) = Some t1.
Hypothesis Hwin : forall t n, In (t, n) all -> t1 <= t < t1 + windowMs o.

Definition burst_spec (j : nat) (now : Z) (r : LimiterResult) : Prop :=
  (Z.of_nat j < max o -> outcome r = Next /\
     headers_after r = [("X-RateLimit-Limit", max o);
                        ("X-RateLimit-Remaining", max o - Z.of_nat j - 1);
                        ("X-RateLimit-Reset", now + windowMs o)]) /\
  (max o <= Z.of_nat j -> outcome r = NextErr (RateLimitError (message o)
     (if 0 <? max o then ceil_div (t1 + windowMs o - now) 1000
      else ceil_div (windowMs o) 1000))).

Lemma entry_scores k e now :
  In e (map entry (firstn k all)) -> now < t1 + windowMs o -> now - windowMs o < e.2 /\ t1 <= e.2.
Proof.
  intros He Hn. apply in_map_iff in He as [[t n] [<- Hin]].
  assert (Hin' : In (t, n) all)
    by (rewrite <- (firstn_skipn k all); apply in_or_app; by left).
  apply Hwin in Hin'. simpl. lia.
Qed.

Lemma retry_after_prefix n now :
  (0 < n)%nat -> (n <= length all)%nat -> now < t1 + windowMs o ->
  retry_after (windowMs o) now (map entry (firstn n all)) = ceil_div (t1 + windowMs o - now) 1000.
Proof.
  intros Hn Hl Hnow.
  assert (H0 : exists n1, nth_error (firstn n all) 0 = Some (t1, n1)).
  { rewrite nth_error_firstn. destruct n as [|n]; [lia|]. simpl.
    revert Hfirst. case all as [|[ta na] rest]; simpl; [discriminate|].
    intros Hf. injection Hf as Hta. subst ta. exists na. reflexivity. }
  destruct H0 as [n1 H0]. apply nth_error_In in H0.
  unfold retry_after. destruct (zmin (map entry (firstn n all))) as [[m ts]|] eqn:Ez.
  - apply zmin_some in Ez as [Hin Hall].
    apply (entry_scores _ _ now) in Hin as [_ Hts]; [|done]. simpl in Hts.
    rewrite List.Forall_forall in Hall.
    specialize (Hall (entry (t1, n1)) (in_map _ _ _ H0)). simpl in Hall.
    by replace ts with t1 by lia.
  - apply zmin_none in Ez. apply map_eq_nil in Ez. rewrite Ez in H0. done.
Qed.

Lemma burst_gen rs : forall k c,
  skipn k all = rs -> status c = "ready" -> faults c = [] ->
  get_zset c ("ratelimit:" ++ keyGenerator o req)
    = map entry (firstn (Nat.min k (Z.to_nat (max o))) all) ->
  forall i now rnd r, nth_error rs i = Some (now, rnd) ->
  nth_error (run_requests o c req rs) i = Some r -> burst_spec (k + i) now r.
Proof.
  induction rs as [|[now0 rnd0] rs' IH]; intros k c Hsk Hst Hf Hz i now rnd r Hi Hr;
    [destruct i; discriminate|].
  assert (Hk : nth_error all k = Some (now0, rnd0))
    by (rewrite <- hd_error_skipn, Hsk; reflexivity).
  assert (Hsk' : skipn (S k) all = rs').
  { replace (S k) with (k + 1)%nat by lia. rewrite <- drop_drop, Hsk. reflexivity. }
  assert (Hin0 : In (now0, rnd0) all) by (eapply nth_error_In; exact Hk).
  destruct (Hwin _ _ Hin0) as [Hlo Hhi].
  assert (Hlen : (k < length all)%nat) by (apply nth_error_Some; congruence).
  set (key := "ratelimit:" ++ keyGenerator o req) in *.
  set (M := Z.to_nat (max o)) in *.
  assert (Hkeep : get_zset (zremrangebyscore_c c key 0 (now0 - windowMs o)) key
                  = get_zset c key).
  { apply zremrangebyscore_c_keep. intros e He. rewrite Hz in He.
    by apply (entry_scores _ _ now0) in He as [? _]. }
  rewrite run_requests_cons in Hr.
  rewrite (createLimiter_ready_eval o c req now0 rnd0 Hst Hf) in Hr. fold key in Hr.
  rewrite Hkeep, Hz, length_map, length_firstn in Hr.
  destruct (Nat.lt_ge_cases k M) as [HkM|HkM].
  - (* the request is let through *)
    rewrite (Nat.min_l k M) in Hr, Hz by lia. rewrite (Nat.min_l k (length all)) in Hr by lia.
    assert (Hlt : Z.of_nat k < max o) by (unfold M in HkM; lia).
    destruct (max o <=? Z.of_nat k) eqn:Hc; [apply Z.leb_le in Hc; lia|].
    destruct i as [|i]; simpl in Hi, Hr.
    + injection Hi as <- <-. injection Hr as <-. rewrite Nat.add_0_r.
      split; [|intros; lia]. intros _. split; [reflexivity|].
      simpl. do 3 f_equal. lia.
    + rewrite <- Nat.add_succ_comm.
      eapply (IH (S k)); [exact Hsk'| | | |exact Hi|exact Hr].
      * by rewrite expire_c_status, zadd_c_status, zremrangebyscore_c_status.
      * by rewrite expire_c_faults, zadd_c_faults, zremrangebyscore_c_faults.
      * rewrite get_zset_expire, zadd_c_get, Hkeep, Hz, filter_member_fresh.
        -- rewrite (Nat.min_l (S k) M) by lia. rewrite (firstn_S_nth _ _ _ Hk), map_app.
           reflexivity.
        -- apply List.Forall_forall. intros [[t n] s] He.
           apply in_map_iff in He as [[t' n'] [He Hin]]. injection He as <- <- <-.
           unfold member_eqb. simpl.
           destruct (Z.eqb_spec t' now0), (Nat.eqb_spec n' rnd0); subst; try done.
           exfalso. pose proof (firstn_skipn_middle k all Hk) as Hm.
           pose proof (proj1 (NoDup_ListNoDup _) Hnd) as Hnd'.
           rewrite <- Hm in Hnd'. apply List.NoDup_remove_2 in Hnd'. apply Hnd'.
           apply in_or_app. by left.
  - (* rejected *)
    rewrite (Nat.min_r k M) in Hr, Hz by lia. rewrite (Nat.min_l M (length all)) in Hr by lia.
    assert (Hge : max o <= Z.of_nat k) by (unfold M in HkM; lia).
    assert (Hc : (max o <=? Z.of_nat M) = true) by (apply Z.leb_le; unfold M; lia).
    rewrite Hc in Hr.
    destruct i as [|i]; simpl in Hi, Hr.
    + injection Hi as <- <-. injection Hr as <-. rewrite Nat.add_0_r.
      split; [intros; lia|]. intros _. simpl. do 2 f_equal.
      destruct (0 <? max o) eqn:Hm.
      * apply Z.ltb_lt in Hm. apply retry_after_prefix; [unfold M; lia|lia|lia].
      * apply Z.ltb_ge in Hm. destruct M as [|M'] eqn:EM; [reflexivity|unfold M in EM; lia].
    + rewrite <- Nat.add_succ_comm.
      eapply (IH (S k)); [exact Hsk'| | | |exact Hi|exact Hr].
      * by rewrite zremrangebyscore_c_status.
      * by rewrite zremrangebyscore_c_faults.
      * rewrite Hkeep, Hz. by rewrite (Nat.min_r (S k) M) by lia.
Qed.

End Burst.

Lemma run_requests_length o c req rs : length (run_requests o c req rs) = length rs.
Proof.
  revert c. induction rs as [|[now rnd] rs IH]; intros c; simpl; [done|]. by rewrite IH.
Qed.

(** A burst through one limiter bucket.  Starting from an empty bucket on a
    ready store whose calls all succeed, feed [createLimiter] distinct
    requests (timestamp and random draw) that all fall inside one window
    opened by the first request at [t1].  The [i]-th request (from 0) is let
    through with [X-RateLimit-Remaining = max - i - 1] while [i < max]; every
    later one is rejected with a [RateLimitError] whose [retryAfter] is the
    whole seconds left until [t1 + windowMs].  The [res.send] override is
    not run between requests. *)
Theorem limiter_burst o c req rs t1 :
  status c = "ready" -> faults c = [] ->
  get_zset c ("ratelimit:" ++ keyGenerator o req) = [] ->
  NoDup rs -> option_map fst (head rs) = Some t1 ->
  (forall t n, In (t, n) rs -> t1 <= t < t1 + windowMs o) ->
  (length (run_requests o c req rs) = length rs)%nat /\
  forall i now rnd r, nth_error rs i = Some (now, rnd) ->
    nth_error (run_requests o c req rs) i = Some r -> burst_spec o t1 i now r.
Proof.
  intros Hst Hf Hz Hnd Hfirst Hwin. split; [apply run_requests_length|].
  intros i now rnd r Hi Hr.
  eapply (burst_gen o req rs t1 Hnd Hfirst Hwin rs 0 c);
    [reflexivity|exact Hst|exact Hf| |exact Hi|exact Hr].
  rewrite Hz. by rewrite Nat.min_0_l.
Qed.

Definition six_attempts : list (Z * nat) :=
  [(1000, 1%nat); (1001, 2%nat); (1002, 3%nat); (1003, 4%nat); (1004, 5%nat); (1005, 6%nat)].

Lemma six_attempts_window t n :
  In (t, n) six_attempts -> 1000 <= t < 1000 + windowMs authLimiter_options.
Proof.
  intros H. simpl in H.
  repeat (destruct H as [H|H]; [injection H as <- <-; simpl; lia|]). done.
Qed.

(** Six login attempts from one address within a few milliseconds: the
    burst theorem applies with [t1 = 1000]. *)
Lemma limiter_burst_witness :
  status empty_ready_client = "ready" /\ faults empty_ready_client = [] /\
  get_zset empty_ready_client ("ratelimit:" ++ keyGenerator authLimiter_options auth_request) = [] /\
  NoDup six_attempts /\ option_map fst (head six_attempts) = Some 1000 /\
  (forall t n, In (t, n) six_attempts -> 1000 <= t < 1000 + windowMs authLimiter_options) /\
  ((length (run_requests authLimiter_options empty_ready_client auth_request six_attempts)
      = length six_attempts)%nat /\
   forall i now rnd r, nth_error six_attempts i = Some (now, rnd) ->
     nth_error (run_requests authLimiter_options empty_ready_client auth_request six_attempts) i = Some r ->
     burst_spec authLimiter_options 1000 i now r).
Proof.
  assert (Hnd : NoDup six_attempts) by (apply (bool_decide_unpack (NoDup six_attempts)); vm_compute; reflexivity).
  split; [reflexivity|]. split; [reflexivity|]. split; [reflexivity|].
  split; [exact Hnd|]. split; [reflexivity|]. split; [exact six_attempts_window|].
  exact (limiter_burst authLimiter_options empty_ready_client auth_request six_attempts 1000
           eq_refl eq_refl eq_refl Hnd eq_refl six_attempts_window).
Defined.


(** Everything the store holds outside [key], and its status, are the same
    in [c] and [c']. *)
Definition frame (key : string) (c c' : RedisClient) : Prop :=
  status c' = status c /\
  forall k, k <> key -> zsets c' !! k = zsets c !! k /\ ttls c' !! k = ttls c !! k.

Lemma frame_refl key c : frame key c c.
Proof. split; [done|]. intros k _. done. Qed.

Lemma frame_trans key c1 c2 c3 : frame key c1 c2 -> frame key c2 c3 -> frame key c1 c3.
Proof.
  intros [H1 H2] [H3 H4]. split; [congruence|].
  intros k Hk. destruct (H2 k Hk), (H4 k Hk). split; congruence.
Qed.

Lemma with_faults_frame key c fs : frame key c (with_faults c fs).
Proof. destruct c. split; done. Qed.

Lemma put_zset_frame key c z : frame key c (put_zset c key z).
Proof.
  unfold put_zset. destruct z; split; try done; intros k Hk; simpl.
  - by rewrite !lookup_delete_ne by congruence.
  - by rewrite lookup_insert_ne by congruence.
Qed.

Lemma zremrangebyscore_c_frame key c lo hi : frame key c (zremrangebyscore_c c key lo hi).
Proof.
  unfold zremrangebyscore_c. destruct (zsets c !! key); [apply put_zset_frame|apply frame_refl].
Qed.

Lemma zadd_c_frame key c score m : frame key c (zadd_c c key score m).
Proof. apply put_zset_frame. Qed.

Lemma expire_c_frame key c secs : frame key c (expire_c c key secs).
Proof.
  unfold expire_c. destruct (zsets c !! key); [|apply frame_refl].
  split; [done|]. intros k Hk. simpl. by rewrite lookup_insert_ne by congruence.
Qed.

(** A step of the middleware body touches no key but [key]. *)
Definition preserves {A} (key : string) (m : M A) : Prop :=
  forall s, frame key (client s) (client (m s).2).

Lemma preserves_ret {A} key (a : A) : preserves key (ret a).
Proof. intros s. apply frame_refl. Qed.

Lemma preserves_throw {A} key e : preserves key (@throw A e).
Proof. intros s. apply frame_refl. Qed.

Lemma preserves_res_set key name v : preserves key (res_set name v).
Proof. intros s. apply frame_refl. Qed.

Lemma preserves_bind {A B} key (m : M A) (k : A -> M B) :
  preserves key m -> (forall a, preserves key (k a)) -> preserves key (bind m k).
Proof.
  intros Hm Hk s. unfold bind. specialize (Hm s).
  destruct (m s) as [[e|a] s'] eqn:E; simpl in *; [done|].
  eapply frame_trans; [exact Hm|apply Hk].
Qed.

Lemma preserves_call {A} key (op : RedisClient -> A * RedisClient) :
  (forall c, frame key c (op c).2) -> preserves key (call op).
Proof.
  intros Hop s. unfold call.
  pose proof (Hop (with_faults (client s) (tl (faults (client s))))) as H.
  destruct (op _) as [a c'] eqn:E. simpl in H.
  destruct (faults (client s)) as [|[|] fs]; simpl;
    try (eapply frame_trans; [apply with_faults_frame|exact H]).
  apply with_faults_frame.
Qed.

Lemma limiter_body_preserves o req now rnd :
  preserves ("ratelimit:" ++ keyGenerator o req) (limiter_body o req now rnd).
Proof.
  unfold limiter_body, zremrangebyscore, zcard, zrange_first, zadd, expire. cbv zeta.
  apply preserves_bind; [apply preserves_call; intros; apply zremrangebyscore_c_frame|intros _].
  apply preserves_bind; [apply preserves_call; intros; apply frame_refl|intros n].
  destruct (max o <=? n).
  - apply preserves_bind; [apply preserves_call; intros; apply frame_refl|intros first].
    repeat (apply preserves_bind; [apply preserves_res_set|intros _]).
    apply preserves_throw.
  - apply preserves_bind; [apply preserves_call; intros; apply zadd_c_frame|intros _].
    apply preserves_bind; [apply preserves_call; intros; apply expire_c_frame|intros _].
    repeat (apply preserves_bind; [apply preserves_res_set|intros _]).
    apply preserves_ret.
Qed.

Lemma createLimiter_frame o c req now rnd c' k :
  client_after (createLimiter o (Some c) req now rnd) = Some c' ->
  k <> "ratelimit:" ++ keyGenerator o req ->
  status c' = status c /\ zsets c' !! k = zsets c !! k /\ ttls c' !! k = ttls c !! k.
Proof.
  intros Hc Hk. unfold createLimiter in Hc.
  destruct (negb (status c =? "ready")%string).
  { simpl in Hc. injection Hc as <-. done. }
  pose proof (limiter_body_preserves o req now rnd (mkL c [])) as Hp.
  destruct (limiter_body o req now rnd (mkL c [])) as [[[m r|]|h] s] eqn:E;
    simpl in Hc; injection Hc as <-; simpl in Hp; destruct Hp as [Hs Hz];
    destruct (Hz k Hk); done.
Qed.

(** One limiter evaluation, whatever its outcome and whichever store
    calls reject, changes no sorted set and no expiry outside its own key
    [ratelimit:<keyGenerator(req)>], and leaves the client status as it
    was. *)
Theorem limiter_frame o c req now rnd c' k :
  client_after (createLimiter o (Some c) req now rnd) = Some c' ->
  k <> "ratelimit:" ++ keyGenerator o req ->
  status c' = status c /\ zsets c' !! k = zsets c !! k /\ ttls c' !! k = ttls c !! k.
Proof. apply createLimiter_frame. Qed.

Lemma limiter_frame_witness :
  client_after (createLimiter authLimiter_options (Some empty_ready_client) auth_request 1000 1)
    = Some (expire_c (zadd_c empty_ready_client "ratelimit:auth:10.0.0.1:a@b.c" 1000 (1000, 1%nat))
              "ratelimit:auth:10.0.0.1:a@b.c" 900) /\
  "ratelimit:ip:10.0.0.1" <> "ratelimit:" ++ keyGenerator authLimiter_options auth_request /\
  (status (expire_c (zadd_c empty_ready_client "ratelimit:auth:10.0.0.1:a@b.c" 1000 (1000, 1%nat))
              "ratelimit:auth:10.0.0.1:a@b.c" 900) = status empty_ready_client /\
   zsets (expire_c (zadd_c empty_ready_client "ratelimit:auth:10.0.0.1:a@b.c" 1000 (1000, 1%nat))
              "ratelimit:auth:10.0.0.1:a@b.c" 900) !! "ratelimit:ip:10.0.0.1"
     = zsets empty_ready_client !! "ratelimit:ip:10.0.0.1" /\
   ttls (expire_c (zadd_c empty_ready_client "ratelimit:auth:10.0.0.1:a@b.c" 1000 (1000, 1%nat))
              "ratelimit:auth:10.0.0.1:a@b.c" 900) !! "ratelimit:ip:10.0.0.1"
     = ttls empty_ready_client !! "ratelimit:ip:10.0.0.1").
Proof.
  assert (Hc : client_after (createLimiter authLimiter_options (Some empty_ready_client) auth_request 1000 1)
    = Some (expire_c (zadd_c empty_ready_client "ratelimit:auth:10.0.0.1:a@b.c" 1000 (1000, 1%nat))
              "ratelimit:auth:10.0.0.1:a@b.c" 900)) by reflexivity.
  assert (Hk : "ratelimit:ip:10.0.0.1" <> "ratelimit:" ++ keyGenerator authLimiter_options auth_request)
    by (simpl; discriminate).
  split; [exact Hc|]. split; [exact Hk|].
  exact (limiter_frame authLimiter_options empty_ready_client auth_request 1000 1 _ _ Hc Hk).
Defined.

Lemma limiter_keys_distinct req1 req2 :
  "ratelimit:" ++ keyGenerator authLimiter_options req1
    <> "ratelimit:" ++ keyGenerator apiLimiter_options req2 /\
  "ratelimit:" ++ keyGenerator authLimiter_options req1
    <> "ratelimit:" ++ keyGenerator taskCreationLimiter_options req2 /\
  "ratelimit:" ++ keyGenerator apiLimiter_options req1
    <> "ratelimit:" ++ keyGenerator taskCreationLimiter_options req2.
Proof.
  simpl. unfold default_keyGenerator.
  split; [|split]; destruct (req_user req1), (req_user req2); simpl; discriminate.
Qed.

(** The three limiters the application builds keep separate buckets: the
    key of [authLimiter()] ([ratelimit:auth:...]), of [apiLimiter()]
    ([ratelimit:user:...] or [ratelimit:ip:...]) and of
    [taskCreationLimiter()] ([ratelimit:create:user:...]) never coincide,
    whatever the two requests. *)
Theorem limiter_namespaces req1 req2 :
  "ratelimit:" ++ keyGenerator authLimiter_options req1
    <> "ratelimit:" ++ keyGenerator apiLimiter_options req2 /\
  "ratelimit:" ++ keyGenerator authLimiter_options req1
    <> "ratelimit:" ++ keyGenerator taskCreationLimiter_options req2 /\
  "ratelimit:" ++ keyGenerator apiLimiter_options req1
    <> "ratelimit:" ++ keyGenerator taskCreationLimiter_options req2.
Proof. apply limiter_keys_distinct. Qed.

(** A login attempt through [authLimiter()], whatever its outcome, leaves
    the [apiLimiter()] and [taskCreationLimiter()] buckets of every request
    as they were. *)
Theorem auth_limiter_isolated c req now rnd c' req' :
  client_after (createLimiter authLimiter_options (Some c) req now rnd) = Some c' ->
  get_zset c' ("ratelimit:" ++ keyGenerator apiLimiter_options req')
    = get_zset c ("ratelimit:" ++ keyGenerator apiLimiter_options req') /\
  get_zset c' ("ratelimit:" ++ keyGenerator taskCreationLimiter_options req')
    = get_zset c ("ratelimit:" ++ keyGenerator taskCreationLimiter_options req').
Proof.
  intros Hc. destruct (limiter_keys_distinct req req') as [H1 [H2 _]].
  unfold get_zset. split.
  - f_equal. apply (createLimiter_frame _ _ _ _ _ _ _ Hc (not_eq_sym H1)).
  - f_equal. apply (createLimiter_frame _ _ _ _ _ _ _ Hc (not_eq_sym H2)).
Qed.

Lemma auth_limiter_isolated_witness :
  client_after (createLimiter authLimiter_options (Some empty_ready_client) auth_request 1000 1)
    = Some (expire_c (zadd_c empty_ready_client "ratelimit:auth:10.0.0.1:a@b.c" 1000 (1000, 1%nat))
              "ratelimit:auth:10.0.0.1:a@b.c" 900) /\
  (get_zset (expire_c (zadd_c empty_ready_client "ratelimit:auth:10.0.0.1:a@b.c" 1000 (1000, 1%nat))
              "ratelimit:auth:10.0.0.1:a@b.c" 900)
     ("ratelimit:" ++ keyGenerator apiLimiter_options auth_request)
    = get_zset empty_ready_client ("ratelimit:" ++ keyGenerator apiLimiter_options auth_request) /\
   get_zset (expire_c (zadd_c empty_ready_client "ratelimit:auth:10.0.0.1:a@b.c" 1000 (1000, 1%nat))
              "ratelimit:auth:10.0.0.1:a@b.c" 900)
     ("ratelimit:" ++ keyGenerator taskCreationLimiter_options auth_request)
    = get_zset empty_ready_client ("ratelimit:" ++ keyGenerator taskCreationLimiter_options auth_request)).
Proof.
  assert (Hc : client_after (createLimiter authLimiter_options (Some empty_ready_client) auth_request 1000 1)
    = Some (expire_c (zadd_c empty_ready_client "ratelimit:auth:10.0.0.1:a@b.c" 1000 (1000, 1%nat))
              "ratelimit:auth:10.0.0.1:a@b.c" 900)) by reflexivity.
  split; [exact Hc|].
  exact (auth_limiter_isolated empty_ready_client auth_request 1000 1 _ auth_request Hc).
Defined.

Lemma js_or_nonempty a b : b <> "" -> js_or a b <> "".
Proof.
  intros Hb. unfold js_or. destruct a as [s|]; [|done].
  destruct (String.eqb_spec s ""); done.
Qed.

Lemma getClientIp_nonempty_gen req : getClientIp req <> "".
Proof. unfold getClientIp. repeat apply js_or_nonempty. discriminate. Qed.

(** [getClientIp] never yields the empty string: when every header and
    address is absent or empty it falls back to ["unknown"]. *)
Theorem getClientIp_nonempty req : getClientIp req <> "".
Proof. apply getClientIp_nonempty_gen. Qed.

(** A string without a comma. *)
Fixpoint no_comma (s : string) : bool :=
  match s with
  | EmptyString => true
  | String c s' => negb (Ascii.eqb c ","%char) && no_comma s'
  end.

Lemma split_first_spec s :
  no_comma (split_first s) = true /\
  exists rest, s = split_first s ++ rest /\ (rest = "" \/ exists r', rest = String ","%char r').
Proof.
  induction s as [|c s IH]; simpl.
  - split; [done|]. exists "". by split; [|left].
  - destruct (Ascii.eqb_spec c ","%char) as [->|Hc].
    + split; [done|]. exists (String ","%char s). split; [done|]. right. by exists s.
    + destruct IH as [Hn [rest [Hs Hr]]]. simpl.
      destruct (Ascii.eqb_spec c ","%char); [done|]. split; [done|].
      exists rest. split; [|done]. rewrite Hs at 1. reflexivity.
Qed.

(** With an [X-Forwarded-For] header whose first segment is non-empty,
    [getClientIp] returns that segment: a comma-free prefix of the header
    that ends where the header ends or at its first comma.  The header is
    taken as the client sends it. *)
Theorem getClientIp_forwarded req s :
  h_forwarded_for req = Some s -> split_first s <> "" ->
  getClientIp req = split_first s /\ no_comma (getClientIp req) = true /\
  exists rest, s = getClientIp req ++ rest /\ (rest = "" \/ exists r', rest = String ","%char r').
Proof.
  intros Hx Hne.
  assert (Hip : getClientIp req = split_first s).
  { unfold getClientIp. rewrite Hx. simpl. by destruct (String.eqb_spec (split_first s) ""). }
  rewrite Hip. split; [done|]. apply split_first_spec.
Qed.

Definition spoofed_request : RawRequest :=
  mkRaw (Some "203.0.113.9, 10.0.0.1") None (Some "10.0.0.1") None (Some "10.0.0.1") None None.

Lemma getClientIp_forwarded_witness :
  h_forwarded_for spoofed_request = Some "203.0.113.9, 10.0.0.1" /\
  split_first "203.0.113.9, 10.0.0.1" <> "" /\
  (getClientIp spoofed_request = split_first "203.0.113.9, 10.0.0.1" /\
   no_comma (getClientIp spoofed_request) = true /\
   exists rest, "203.0.113.9, 10.0.0.1" = getClientIp spoofed_request ++ rest /\
     (rest = "" \/ exists r', rest = String ","%char r')).
Proof.
  assert (H1 : h_forwarded_for spoofed_request = Some "203.0.113.9, 10.0.0.1") by reflexivity.
  assert (H2 : split_first "203.0.113.9, 10.0.0.1" <> "") by (simpl; discriminate).
  split; [exact H1|]. split; [exact H2|].
  exact (getClientIp_forwarded spoofed_request _ H1 H2).
Defined.

Lemma retry_after_bounds w now (surv : zset) :
  0 < w -> (forall e, In e surv -> now - w < e.2 <= now) ->
  1 <= retry_after w now surv <= ceil_div w 1000.
Proof.
  intros Hw Hs. unfold retry_after. destruct (zmin surv) as [[m ts]|] eqn:E.
  - apply zmin_some in E as [Hin _]. apply Hs in Hin. simpl in Hin.
    split; [apply ceil_div_pos; lia|apply ceil_div_mono; lia].
  - split; [by apply ceil_div_pos|lia].
Qed.

Lemma rejection_bounds_gen o c req now rnd m ra :
  status c = "ready" -> faults c = [] -> 0 < windowMs o ->
  (forall e, In e (get_zset c ("ratelimit:" ++ keyGenerator o req)) -> 0 <= e.2 <= now) ->
  outcome (createLimiter o (Some c) req now rnd) = NextErr (RateLimitError m ra) ->
  m = message o /\ 1 <= ra <= ceil_div (windowMs o) 1000 /\
  headers_after (createLimiter o (Some c) req now rnd)
    = [("Retry-After", ra); ("X-RateLimit-Limit", max o);
       ("X-RateLimit-Remaining", 0); ("X-RateLimit-Reset", now + ra * 1000)].
Proof.
  intros Hst Hf Hw Hsc Ho.
  rewrite (createLimiter_ready_eval o c req now rnd Hst Hf) in Ho |- *. cbv zeta in Ho |- *.
  destruct (max o <=? _); simpl in Ho; [|discriminate].
  injection Ho as <- <-. split; [done|]. split; [|done].
  apply retry_after_bounds; [done|]. intros e He.
  rewrite zremrangebyscore_c_get in He. apply filter_In in He as [He Hk].
  apply Hsc in He. destruct (e.2 <=? now - windowMs o) eqn:E.
  - rewrite (proj2 (Z.leb_le 0 e.2)) in Hk by lia. discriminate.
  - apply Z.leb_gt in E. lia.
Qed.

(** A rejection by a ready store whose calls all succeed, when every entry
    of the bucket is scored in [[0, now]]: the error carries the limiter's
    message and a delay of at least one second and at most
    [ceil(windowMs/1000)]; the response carries [Retry-After] equal to that
    delay, the limit, [0] remaining and the reset instant
    [now + retryAfter * 1000]. *)
Theorem limiter_rejection_bounds o c req now rnd m ra :
  status c = "ready" -> faults c = [] -> 0 < windowMs o ->
  (forall e, In e (get_zset c ("ratelimit:" ++ keyGenerator o req)) -> 0 <= e.2 <= now) ->
  outcome (createLimiter o (Some c) req now rnd) = NextErr (RateLimitError m ra) ->
  m = message o /\ 1 <= ra <= ceil_div (windowMs o) 1000 /\
  headers_after (createLimiter o (Some c) req now rnd)
    = [("Retry-After", ra); ("X-RateLimit-Limit", max o);
       ("X-RateLimit-Remaining", 0); ("X-RateLimit-Reset", now + ra * 1000)].
Proof. apply rejection_bounds_gen. Qed.


Definition full_auth_client : RedisClient :=
  mkClient "ready"
    {[ "ratelimit:auth:10.0.0.1:a@b.c" :=
         map (fun i => ((1000 + Z.of_nat i, i), 1000 + Z.of_nat i)) (seq 0 5) ]} ∅ [].

Lemma full_auth_client_scores e :
  In e (get_zset full_auth_client ("ratelimit:" ++ keyGenerator authLimiter_options auth_request)) ->
  0 <= e.2 <= 2000.
Proof.
  intros He. vm_compute in He.
  repeat (destruct He as [<-|He]; [vm_compute; split; discriminate|]). done.
Qed.

Lemma limiter_rejection_bounds_witness :
  status full_auth_client = "ready" /\ faults full_auth_client = [] /\
  0 < windowMs authLimiter_options /\
  (forall e, In e (get_zset full_auth_client ("ratelimit:" ++ keyGenerator authLimiter_options auth_request)) ->
     0 <= e.2 <= 2000) /\
  outcome (createLimiter authLimiter_options (Some full_auth_client) auth_request 2000 9)
    = NextErr (RateLimitError (message authLimiter_options) 899) /\
  (message authLimiter_options = message authLimiter_options /\
   1 <= 899 <= ceil_div (windowMs authLimiter_options) 1000 /\
   headers_after (createLimiter authLimiter_options (Some full_auth_client) auth_request 2000 9)
     = [("Retry-After", 899); ("X-RateLimit-Limit", max authLimiter_options);
        ("X-RateLimit-Remaining", 0); ("X-RateLimit-Reset", 2000 + 899 * 1000)]).
Proof.
  assert (Ho : outcome (createLimiter authLimiter_options (Some full_auth_client) auth_request 2000 9)
    = NextErr (RateLimitError (message authLimiter_options) 899)) by (vm_compute; reflexivity).
  assert (Hw : 0 < windowMs authLimiter_options) by (simpl; lia).
  split; [reflexivity|]. split; [reflexivity|]. split; [exact Hw|].
  split; [exact full_auth_client_scores|]. split; [exact Ho|].
  exact (limiter_rejection_bounds authLimiter_options full_auth_client auth_request 2000 9 _ _
           eq_refl eq_refl Hw full_auth_client_scores Ho).
Defined.

(** Through [apiLimiter()], an unauthenticated request whose
    [X-Forwarded-For] header starts with a segment [s] that has no entry in
    the store yet is always let through (ready store, calls succeeding):
    the client picks the header, so each fresh value opens a fresh
    bucket [ratelimit:ip:<s>]. *)
Theorem forwarded_for_fresh_bucket c req s now rnd :
  status c = "ready" -> faults c = [] ->
  raw_user req = None -> h_forwarded_for req = Some s -> split_first s <> "" ->
  get_zset c ("ratelimit:ip:" ++ split_first s) = [] ->
  outcome (createLimiter apiLimiter_options (Some c) (to_request req) now rnd) = Next /\
  headers_after (createLimiter apiLimiter_options (Some c) (to_request req) now rnd)
    = [("X-RateLimit-Limit", 100); ("X-RateLimit-Remaining", 99);
       ("X-RateLimit-Reset", now + 900000)].
Proof.
  intros Hst Hf Hu Hx Hne Hz.
  assert (Hip : getClientIp req = split_first s).
  { unfold getClientIp. rewrite Hx. simpl. by destruct (String.eqb_spec (split_first s) ""). }
  assert (Hk : "ratelimit:" ++ keyGenerator apiLimiter_options (to_request req)
               = "ratelimit:ip:" ++ split_first s).
  { simpl. unfold default_keyGenerator, to_request. simpl. rewrite Hu, Hip. reflexivity. }
  rewrite (createLimiter_ready_eval _ _ _ now rnd Hst Hf). cbv zeta. rewrite Hk.
  rewrite zremrangebyscore_c_get, Hz. simpl. done.
Qed.

Lemma forwarded_for_fresh_bucket_witness :
  status empty_ready_client = "ready" /\ faults empty_ready_client = [] /\
  raw_user spoofed_request = None /\
  h_forwarded_for spoofed_request = Some "203.0.113.9, 10.0.0.1" /\
  split_first "203.0.113.9, 10.0.0.1" <> "" /\
  get_zset empty_ready_client ("ratelimit:ip:" ++ split_first "203.0.113.9, 10.0.0.1") = [] /\
  (outcome (createLimiter apiLimiter_options (Some empty_ready_client) (to_request spoofed_request) 5000 3) = Next /\
   headers_after (createLimiter apiLimiter_options (Some empty_ready_client) (to_request spoofed_request) 5000 3)
     = [("X-RateLimit-Limit", 100); ("X-RateLimit-Remaining", 99);
        ("X-RateLimit-Reset", 5000 + 900000)]).
Proof.
  assert (H2 : split_first "203.0.113.9, 10.0.0.1" <> "") by (simpl; discriminate).
  split; [reflexivity|]. split; [reflexivity|]. split; [reflexivity|]. split; [reflexivity|].
  split; [exact H2|]. split; [reflexivity|].
  exact (forwarded_for_fresh_bucket empty_ready_client spoofed_request _ 5000 3
           eq_refl eq_refl eq_refl eq_refl H2 eq_refl).
Defined.
End RateLimiterMoreFacts.

(** * Error classes and the Express error handler

    [src/utils/errors.js] and [src/middleware/errorHandler.js]. *)
Module ErrorHandling.
Import RateLimiterClients.

(** [String(n)] for an integer [n]: its decimal digits, after a minus
    sign when negative. *)
Definition digit_char (d : Z) : ascii := ascii_of_nat (48 + Z.to_nat d).

Fixpoint digits_aux (fuel : nat) (n : Z) (acc : string) : string :=
  match fuel with
  | O => acc
  | S f =>
      let acc' := String (digit_char (n mod 10)) acc in
      if n <? 10 then acc' else digits_aux f (n / 10) acc'
  end.

Definition number_to_string (n : Z) : string :=
  if n <? 0 then String "-"%char (digits_aux (S (Z.to_nat (- n))) (- n) "")
  else digits_aux (S (Z.to_nat n)) n "".

(** [s.startsWith('4')]. *)
Definition starts_with_4 (s : string) : bool :=
  match s with
  | String c _ => Ascii.eqb c "4"%char
  | EmptyString => false
  end.

(** [this.status] of an [AppError]:
    [`${statusCode}`.startsWith('4') ? 'fail' : 'error']. *)
Definition appError_status (statusCode : Z) : string :=
  if starts_with_4 (number_to_string statusCode) then "fail" else "error".

(** The value of [err.errors]: absent, an array (even empty, it is
    truthy), or a plain object such as Mongoose's error map. *)
Inductive ErrorsValue :=
  | ErrorsUndefined
  | ErrorsArray
  | ErrorsObject.

(** The properties of a thrown value the handler reads.  A property left
    [undefined] (or [null]) is [None]. *)
Record JsError := mkJsError {
  err_name : string;                  (* err.name *)
  err_message : string;               (* err.message *)
  err_statusCode : option Z;          (* err.statusCode *)
  err_errors : ErrorsValue;           (* err.errors *)
  err_code : option Z;                (* err.code *)
  err_keyPattern : option (list string); (* Object.keys(err.keyPattern) *)
  err_errorCode : option string;      (* err.errorCode *)
  err_retryAfter : option Z;          (* err.retryAfter *)
  err_isAppError : bool               (* err instanceof AppError *)
}.

(** [new AppError(message, statusCode, errorCode)]: no class sets [name],
    so it stays ["Error"]. *)
Definition app_error (msg : string) (statusCode : Z) (errorCode : option string) : JsError :=
  mkJsError "Error" msg (Some statusCode) ErrorsUndefined None None errorCode None true.

Definition NotFoundError (msg : string) : JsError := app_error msg 404 (Some "RESOURCE_NOT_FOUND").
Definition AuthenticationError (msg : string) : JsError := app_error msg 401 (Some "AUTH_FAILED").
Definition AuthorizationError (msg : string) : JsError := app_error msg 403 (Some "ACCESS_DENIED").
(** [new ValidationError(message, errors = [])]: [this.errors] is an array. *)
Definition ValidationError (msg : string) : JsError :=
  mkJsError "Error" msg (Some 400) ErrorsArray None None (Some "VALIDATION_ERROR") None true.
Definition RateLimitError (msg : string) : JsError := app_error msg 429 (Some "RATE_LIMIT_EXCEEDED").
Definition DatabaseError (msg : string) : JsError := app_error msg 500 (Some "DB_ERROR").
Definition CacheError (msg : string) : JsError := app_error msg 500 (Some "CACHE_ERROR").

(** The error the limiter passes to [next]:
    [new RateLimitError(message)] with [error.retryAfter = retryAfter]. *)
Definition limiter_error (e : RateLimiter.exn) : option JsError :=
  match e with
  | RateLimiter.RateLimitError m r =>
      Some (mkJsError "Error" m (Some 429) ErrorsUndefined None None
              (Some "RATE_LIMIT_EXCEEDED") (Some r) true)
  | RateLimiter.StoreError => None
  end.

(** [n || d] for a number that may be [undefined]. *)
Definition num_or (v : option Z) (d : Z) : Z :=
  match v with
  | Some n => if n =? 0 then d else n
  | None => d
  end.

Definition num_truthy (v : option Z) : bool :=
  match v with
  | Some n => negb (n =? 0)
  | None => false
  end.

(** The fields of the JSON body the handler sends that these proofs look
    at ([timestamp], [errors], [details] and [stack] are left out). *)
Record ErrorBody := mkErrorBody {
  body_status : string;
  body_statusCode : Z;
  body_message : string;
  body_errorCode : string;
  body_retryAfter : option Z
}.

(** [res.status(code).json(body)], or the [TypeError] the handler itself
    throws reading a property of [undefined]. *)
Inductive HandlerResult :=
  | Responded (code : Z) (body : ErrorBody)
  | HandlerTypeError.

(** [errorHandler(err, req, res, next)], with [isDev] standing for
    [process.env.NODE_ENV === 'development']. *)
Definition errorHandler (isDev : bool) (err : JsError) : HandlerResult :=
  let statusCode := num_or (err_statusCode err) 500 in
  match err_errors err with
  | ErrorsArray =>
      let sc := num_or (Some statusCode) 400 in
      Responded sc (mkErrorBody "fail" sc (js_or (Some (err_message err)) "Validation Error")
                      (js_or (err_errorCode err) "VALIDATION_ERROR") None)
  | _ =>
    if String.eqb (err_name err) "ValidationError" then
      match err_errors err with
      | ErrorsUndefined => HandlerTypeError
      | _ => Responded 400 (mkErrorBody "fail" 400 "Validation Error" "VALIDATION_ERROR" None)
      end
    else if bool_decide (err_code err = Some 11000) then
      match err_keyPattern err with
      | None => HandlerTypeError
      | Some keys =>
          Responded 409 (mkErrorBody "fail" 409
                           ("Duplicate value for " ++ default "undefined" (head keys))
                           "DUPLICATE_KEY" None)
      end
    else if String.eqb (err_name err) "JsonWebTokenError"
            || String.eqb (err_name err) "TokenExpiredError" then
      let expired := String.eqb (err_name err) "TokenExpiredError" in
      Responded 401 (mkErrorBody "fail" 401
                       (if expired then "Token expired" else "Invalid token")
                       (if expired then "TOKEN_EXPIRED" else "INVALID_TOKEN") None)
    else if err_isAppError err then
      Responded statusCode
        (mkErrorBody "fail" statusCode (err_message err)
           (js_or (err_errorCode err) "APPLICATION_ERROR")
           (if bool_decide (err_errorCode err = Some "RATE_LIMIT_EXCEEDED")
               && num_truthy (err_retryAfter err)
            then err_retryAfter err else None))
    else
      Responded statusCode
        (mkErrorBody "error" statusCode
           (if isDev then err_message err else "Internal Server Error")
           (js_or (err_errorCode err) "INTERNAL_ERROR") None)
  end.

(** [n]'s decimal form starts with the digit 4. *)
Definition lead4 (n : Z) : Prop :=
  exists k : nat, 4 * 10 ^ Z.of_nat k <= n < 5 * 10 ^ Z.of_nat k.

Lemma pow10_succ k : 10 ^ Z.of_nat (S k) = 10 * 10 ^ Z.of_nat k.
Proof. rewrite Nat2Z.inj_succ, Z.pow_succ_r by lia. lia. Qed.

Lemma pow10_pos k : 0 < 10 ^ Z.of_nat k.
Proof. apply Z.pow_pos_nonneg; lia. Qed.

Lemma digit_char_4 d : 0 <= d < 10 -> (Ascii.eqb (digit_char d) "4"%char = true <-> d = 4).
Proof.
  intros H. assert (Hd : d = 0 \/ d = 1 \/ d = 2 \/ d = 3 \/ d = 4 \/ d = 5 \/ d = 6 \/
                         d = 7 \/ d = 8 \/ d = 9) by lia.
  repeat (destruct Hd as [->|Hd];
          [vm_compute; split; intros; try reflexivity; try discriminate; lia|]).
  subst. vm_compute. split; intros; try reflexivity; try discriminate; lia.
Qed.

Lemma lead4_small n : 0 <= n < 10 -> (lead4 n <-> n = 4).
Proof.
  intros Hn. split.
  - intros [[|k] Hk].
    + simpl in Hk. lia.
    + rewrite pow10_succ in Hk. pose proof (pow10_pos k). lia.
  - intros ->. exists 0%nat. simpl. lia.
Qed.

Lemma lead4_step n : 10 <= n -> (lead4 n <-> lead4 (n / 10)).
Proof.
  intros Hn. pose proof (Z.div_mod n 10 ltac:(lia)) as Hdm.
  pose proof (Z.mod_pos_bound n 10 ltac:(lia)) as Hmod.
  split.
  - intros [[|k] Hk].
    + simpl in Hk. lia.
    + rewrite pow10_succ in Hk. pose proof (pow10_pos k). exists k. lia.
  - intros [k Hk]. exists (S k). rewrite pow10_succ. pose proof (pow10_pos k). lia.
Qed.

Lemma digits_aux_lead fuel n acc :
  0 <= n -> (Z.to_nat n < fuel)%nat ->
  (starts_with_4 (digits_aux fuel n acc) = true <-> lead4 n).
Proof.
  revert n acc. induction fuel as [|f IH]; intros n acc Hn Hf; [lia|].
  simpl. destruct (n <? 10) eqn:E.
  - apply Z.ltb_lt in E. unfold starts_with_4. rewrite Z.mod_small by lia.
    rewrite digit_char_4 by lia. symmetry. by apply lead4_small.
  - apply Z.ltb_ge in E. rewrite IH.
    + symmetry. by apply lead4_step.
    + apply Z.div_pos; lia.
    + assert (n / 10 < n) by (apply Z.div_lt; lia).
      assert (0 <= n / 10) by (apply Z.div_pos; lia).
      lia.
Qed.

Lemma appError_status_gen c :
  appError_status c = "fail" <->
  0 <= c /\ exists k : nat, 4 * 10 ^ Z.of_nat k <= c < 5 * 10 ^ Z.of_nat k.
Proof.
  unfold appError_status, number_to_string. destruct (c <? 0) eqn:E.
  - apply Z.ltb_lt in E. simpl. split; [discriminate|lia].
  - apply Z.ltb_ge in E. split.
    + destruct (starts_with_4 _) eqn:S; [|discriminate]. intros _. split; [done|].
      apply (digits_aux_lead _ _ _ E) in S; [exact S|lia].
    + intros [_ HL]. apply (digits_aux_lead (S (Z.to_nat c)) c "" E) in HL; [|lia].
      by rewrite HL.
Qed.

(** The [status] an [AppError] records is ['fail'] exactly when its status
    code is a non-negative integer whose decimal form starts with 4:
    every 4xx code, but also 4, 40 or 4000; any other code, 429 apart
    from 4xx, gives ['error'], 500 among them. *)
Theorem appError_status_fail c :
  appError_status c = "fail" <->
  0 <= c /\ exists k : nat, 4 * 10 ^ Z.of_nat k <= c < 5 * 10 ^ Z.of_nat k.
Proof. apply appError_status_gen. Qed.

Lemma handler_app_error_gen isDev msg code ec :
  code <> 0 ->
  errorHandler isDev (app_error msg code ec)
  = Responded code (mkErrorBody "fail" code msg (js_or ec "APPLICATION_ERROR") None).
Proof.
  intros H. unfold errorHandler, app_error, num_or. cbn [err_errors err_name err_statusCode
    err_code err_isAppError err_message err_errorCode err_retryAfter err_keyPattern].
  rewrite (proj2 (Z.eqb_neq _ _) H).
  rewrite bool_decide_eq_false_2 by discriminate. simpl. by rewrite andb_false_r.
Qed.

(** An error built by [new AppError(message, statusCode, errorCode)] or by
    a subclass without an [errors] array ([NotFoundError],
    [AuthenticationError], [AuthorizationError], [DatabaseError],
    [CacheError], a [RateLimitError] without [retryAfter]) is answered
    with its own status code and a body whose [status] is ['fail'],
    whatever the code: a 500 [DatabaseError], whose own [status] is
    ['error'], is reported as ['fail'] too. *)
Theorem handler_app_error_fail isDev msg code ec :
  code <> 0 ->
  errorHandler isDev (app_error msg code ec)
  = Responded code (mkErrorBody "fail" code msg (js_or ec "APPLICATION_ERROR") None).
Proof. apply handler_app_error_gen. Qed.

Lemma handler_app_error_fail_witness :
  500 <> 0 /\
  errorHandler false (DatabaseError "Error fetching tasks")
  = Responded 500 (mkErrorBody "fail" 500 "Error fetching tasks" (js_or (Some "DB_ERROR") "APPLICATION_ERROR") None) /\
  appError_status 500 = "error".
Proof.
  assert (H : 500 <> 0) by lia.
  split; [exact H|]. split; [|reflexivity].
  exact (handler_app_error_fail false "Error fetching tasks" 500 (Some "DB_ERROR") H).
Defined.

(** An error carrying an [errors] array but no [statusCode] is answered
    with 500, not with the 400 the validation branch falls back to: the
    handler has already replaced the missing code by 500. *)
Theorem handler_errors_array_default isDev err :
  err_errors err = ErrorsArray -> err_statusCode err = None ->
  errorHandler isDev err
  = Responded 500 (mkErrorBody "fail" 500 (js_or (Some (err_message err)) "Validation Error")
                     (js_or (err_errorCode err) "VALIDATION_ERROR") None).
Proof. intros He Hs. unfold errorHandler. rewrite He, Hs. reflexivity. Qed.

Definition bare_validation_error : JsError :=
  mkJsError "Error" "Validation failed" None ErrorsArray None None None None false.

Lemma handler_errors_array_default_witness :
  err_errors bare_validation_error = ErrorsArray /\ err_statusCode bare_validation_error = None /\
  errorHandler true bare_validation_error
  = Responded 500 (mkErrorBody "fail" 500 (js_or (Some (err_message bare_validation_error)) "Validation Error")
                     (js_or (err_errorCode bare_validation_error) "VALIDATION_ERROR") None).
Proof.
  split; [reflexivity|]. split; [reflexivity|].
  exact (handler_errors_array_default true bare_validation_error eq_refl eq_refl).
Defined.

(** Outside development mode, an error that is no [AppError], carries no
    [errors] array, is no Mongoose validation or duplicate-key error and
    no JWT error reaches the client as ['Internal Server Error'] with
    status ['error']: its own message is not sent. *)
Theorem handler_hides_internal err :
  err_isAppError err = false -> err_errors err <> ErrorsArray ->
  err_name err <> "ValidationError" -> err_name err <> "JsonWebTokenError" ->
  err_name err <> "TokenExpiredError" -> err_code err <> Some 11000 ->
  errorHandler false err
  = Responded (num_or (err_statusCode err) 500)
      (mkErrorBody "error" (num_or (err_statusCode err) 500) "Internal Server Error"
         (js_or (err_errorCode err) "INTERNAL_ERROR") None).
Proof.
  intros Ha He Hv Hj Ht Hc. unfold errorHandler.
  destruct (err_errors err) eqn:E; [|done|]; rewrite (proj2 (String.eqb_neq _ _) Hv);
    rewrite bool_decide_eq_false_2 by exact Hc;
    rewrite (proj2 (String.eqb_neq _ _) Hj), (proj2 (String.eqb_neq _ _) Ht), Ha; reflexivity.
Qed.

Definition type_error : JsError :=
  mkJsError "TypeError" "Cannot read properties of undefined (reading 'x')" None ErrorsUndefined
    None None None None false.

Lemma handler_hides_internal_witness :
  err_isAppError type_error = false /\ err_errors type_error <> ErrorsArray /\
  err_name type_error <> "ValidationError" /\ err_name type_error <> "JsonWebTokenError" /\
  err_name type_error <> "TokenExpiredError" /\ err_code type_error <> Some 11000 /\
  errorHandler false type_error
  = Responded (num_or (err_statusCode type_error) 500)
      (mkErrorBody "error" (num_or (err_statusCode type_error) 500) "Internal Server Error"
         (js_or (err_errorCode type_error) "INTERNAL_ERROR") None).
Proof.
  assert (H1 : err_errors type_error <> ErrorsArray) by discriminate.
  assert (H2 : err_name type_error <> "ValidationError") by discriminate.
  assert (H3 : err_name type_error <> "JsonWebTokenError") by discriminate.
  assert (H4 : err_name type_error <> "TokenExpiredError") by discriminate.
  assert (H5 : err_code type_error <> Some 11000) by discriminate.
  split; [reflexivity|]. do 5 (split; [assumption|]).
  exact (handler_hides_internal type_error eq_refl H1 H2 H3 H4 H5).
Defined.

(** A rejection by the limiter (ready store, calls succeeding, bucket
    scores in [[0, now]]) reaches the error handler as a [RateLimitError]
    and is answered 429 with status ['fail'], the limiter's message, error
    code [RATE_LIMIT_EXCEEDED] and a [retryAfter] field equal to the
    [Retry-After] header the limiter set. *)
Theorem limiter_rejection_response isDev o c req now rnd e :
  RateLimiter.status c = "ready" -> RateLimiter.faults c = [] -> 0 < RateLimiter.windowMs o ->
  (forall x, In x (RateLimiter.get_zset c ("ratelimit:" ++ RateLimiter.keyGenerator o req)) ->
     0 <= x.2 <= now) ->
  RateLimiter.outcome (RateLimiter.createLimiter o (Some c) req now rnd) = RateLimiter.NextErr e ->
  exists je ra,
    limiter_error e = Some je /\
    head (RateLimiter.headers_after (RateLimiter.createLimiter o (Some c) req now rnd))
      = Some ("Retry-After", ra) /\
    errorHandler isDev je
    = Responded 429 (mkErrorBody "fail" 429 (RateLimiter.message o) "RATE_LIMIT_EXCEEDED" (Some ra)).
Proof.
  intros Hst Hf Hw Hsc Ho.
  assert (He : exists m ra, e = RateLimiter.RateLimitError m ra).
  { unfold RateLimiter.createLimiter in Ho. rewrite Hst in Ho. simpl in Ho.
    destruct (RateLimiter.limiter_body o req now rnd _) as [[[m ra|]|h] s];
      simpl in Ho; try discriminate. injection Ho as <-. eauto. }
  destruct He as [m [ra ->]].
  destruct (RateLimiterMoreFacts.rejection_bounds_gen o c req now rnd m ra Hst Hf Hw Hsc Ho)
    as [-> [Hra Hh]].
  eexists. exists ra. split; [reflexivity|]. split; [by rewrite Hh|].
  unfold errorHandler. simpl.
  by rewrite (proj2 (Z.eqb_neq ra 0)) by lia.
Qed.

Lemma limiter_rejection_response_witness :
  RateLimiter.status RateLimiterMoreFacts.full_auth_client = "ready" /\
  RateLimiter.faults RateLimiterMoreFacts.full_auth_client = [] /\
  0 < RateLimiter.windowMs RateLimiter.authLimiter_options /\
  (forall x, In x (RateLimiter.get_zset RateLimiterMoreFacts.full_auth_client
       ("ratelimit:" ++ RateLimiter.keyGenerator RateLimiter.authLimiter_options RateLimiterFacts.auth_request)) ->
     0 <= x.2 <= 2000) /\
  RateLimiter.outcome (RateLimiter.createLimiter RateLimiter.authLimiter_options
      (Some RateLimiterMoreFacts.full_auth_client) RateLimiterFacts.auth_request 2000 9)
    = RateLimiter.NextErr (RateLimiter.RateLimitError (RateLimiter.message RateLimiter.authLimiter_options) 899) /\
  exists je ra,
    limiter_error (RateLimiter.RateLimitError (RateLimiter.message RateLimiter.authLimiter_options) 899) = Some je /\
    head (RateLimiter.headers_after (RateLimiter.createLimiter RateLimiter.authLimiter_options
      (Some RateLimiterMoreFacts.full_auth_client) RateLimiterFacts.auth_request 2000 9))
      = Some ("Retry-After", ra) /\
    errorHandler false je
    = Responded 429 (mkErrorBody "fail" 429 (RateLimiter.message RateLimiter.authLimiter_options)
                       "RATE_LIMIT_EXCEEDED" (Some ra)).
Proof.
  assert (Ho : RateLimiter.outcome (RateLimiter.createLimiter RateLimiter.authLimiter_options
      (Some RateLimiterMoreFacts.full_auth_client) RateLimiterFacts.auth_request 2000 9)
    = RateLimiter.NextErr (RateLimiter.RateLimitError (RateLimiter.message RateLimiter.authLimiter_options) 899))
    by (vm_compute; reflexivity).
  assert (Hw : 0 < RateLimiter.windowMs RateLimiter.authLimiter_options) by (simpl; lia).
  split; [reflexivity|]. split; [reflexivity|]. split; [exact Hw|].
  split; [exact RateLimiterMoreFacts.full_auth_client_scores|]. split; [exact Ho|].
  exact (limiter_rejection_response false RateLimiter.authLimiter_options
           RateLimiterMoreFacts.full_auth_client RateLimiterFacts.auth_request 2000 9 _
           eq_refl eq_refl Hw RateLimiterMoreFacts.full_auth_client_scores Ho).
Defined.

End ErrorHandling.

Module TaskServiceMoreFacts.
Import TaskService TaskServiceFacts.

























Definition two_users_world : World :=
  mkWorld [mkTask 1 "Pay rent" None 1767139200000 "pending" "U1" 1000]
    {[ "tasks:U2" := ([], 3600) ]} [] [] 2 2000.


Lemma updateTask_invalid_gen nd taskId upd u w :
  (exists k, In k (map fst upd) /\ ~ In k allowedUpdates) ->
  updateTask nd taskId upd u w = (inl (App (ValidationError "Invalid updates")), w).
Proof.
  intros [k [Hk Hn]]. unfold updateTask, catch, throw.
  assert (Hf : forallb (fun k => existsb (String.eqb k) allowedUpdates) (map fst upd) = false).
  { apply not_true_iff_false. intros Hall. rewrite forallb_forall in Hall.
    apply Hn. specialize (Hall k Hk). apply existsb_exists in Hall as [x [Hx Heq]].
    apply String.eqb_eq in Heq. by subst. }
  by rewrite Hf.
Qed.

(** An update object with a key outside [title], [description],
    [status] and [dueDate] is refused with the validation error
    ["Invalid updates"] before any store is called: the task is not
    looked up, and the repository, the cache and both fault oracles stay
    as they were. *)
Theorem updateTask_invalid_keys nd taskId upd u w :
  (exists k, In k (map fst upd) /\ ~ In k allowedUpdates) ->
  updateTask nd taskId upd u w = (inl (App (ValidationError "Invalid updates")), w).
Proof. apply updateTask_invalid_gen. Qed.

Lemma updateTask_invalid_keys_witness :
  (exists k, In k (map fst [("owner", "U2")]) /\ ~ In k allowedUpdates) /\
  updateTask iso_date (ObjectId 1) [("owner", "U2")] "U1" two_users_world
  = (inl (App (ValidationError "Invalid updates")), two_users_world).
Proof.
  assert (H : exists k, In k (map fst [("owner", "U2")]) /\ ~ In k allowedUpdates).
  { exists "owner". split; [left; reflexivity|].
    unfold allowedUpdates. simpl. intros [H|[H|[H|[H|[]]]]]; discriminate. }
  split; [exact H|]. exact (updateTask_invalid_keys iso_date (ObjectId 1) _ "U1" two_users_world H).
Defined.





Lemma delete_first_some (p : Task -> bool) r t r' :
  delete_first p r = (Some t, r') ->
  exists pre post, r = (pre ++ t :: post)%list /\ r' = (pre ++ post)%list /\
    p t = true /\ (forall x, In x pre -> p x = false).
Proof.
  revert r'. induction r as [|y r IH]; intros r' H; simpl in H; [discriminate|].
  destruct (p y) eqn:Ep.
  - injection H as <- <-. exists [], r. repeat split; try done.
  - destruct (delete_first p r) as [o r''] eqn:E. injection H as -> <-.
    destruct (IH r'' eq_refl) as (pre & post & -> & -> & Ht & Hpre).
    exists (y :: pre), post. repeat split; try done.
    intros x [<-|Hx]; [done|]. by apply Hpre.
Qed.

Lemma deleteTask_success_gen taskId u w t w' :
  deleteTask taskId u w = (inr t, w') ->
  exists pre post, repo w = (pre ++ t :: post)%list /\ repo w' = (pre ++ post)%list /\
    taskId = ObjectId (task_id t) /\ owner t = u /\
    (forall x, In x pre -> task_id x <> task_id t \/ owner x <> u).
Proof.
  destruct w as [r c cf rf n k].
  unfold deleteTask, cast_id, catch, bind, findOneAndDelete, repo_call,
    invalidateUserCache, cache_del, throw, ret. simpl.
  destruct taskId as [id|?]; simpl; [|discriminate].
  destruct rf as [|[] rf]; simpl; try discriminate;
  destruct (delete_first _ r) as [[t0|] r'] eqn:Ed; simpl; try discriminate;
  destruct cf as [|[] cf]; simpl; intros H; injection H as <- <-;
  destruct (delete_first_some _ _ _ _ Ed) as (pre & post & Hr & Hr' & Ht & Hpre);
  apply andb_true_iff in Ht as [Hid Hown]; apply Nat.eqb_eq in Hid; subst id; apply String.eqb_eq in Hown;
  exists pre, post; repeat split; try done;
  intros x Hx; specialize (Hpre x Hx); apply andb_false_iff in Hpre;
  (destruct Hpre as [Hp|Hp]; [left; by apply Nat.eqb_neq|right; by apply String.eqb_neq]).
Qed.

(** A successful [deleteTask] removes exactly one document, the one it
    returns: the first document of the collection with id [taskId] and
    owner [userId]; the documents before and after it keep their order. *)
Theorem deleteTask_removes_match taskId u w t w' :
  deleteTask taskId u w = (inr t, w') ->
  exists pre post, repo w = (pre ++ t :: post)%list /\ repo w' = (pre ++ post)%list /\
    taskId = ObjectId (task_id t) /\ owner t = u /\
    (forall x, In x pre -> task_id x <> task_id t \/ owner x <> u).
Proof. apply deleteTask_success_gen. Qed.

Lemma deleteTask_removes_match_witness :
  deleteTask (ObjectId 1) "U1" two_users_world
    = (inr (mkTask 1 "Pay rent" None 1767139200000 "pending" "U1" 1000),
       mkWorld [] {[ "tasks:U2" := ([], 3600) ]} [] [] 2 2000) /\
  exists pre post, repo two_users_world
      = (pre ++ mkTask 1 "Pay rent" None 1767139200000 "pending" "U1" 1000 :: post)%list /\
    repo (mkWorld [] {[ "tasks:U2" := ([], 3600) ]} [] [] 2 2000) = (pre ++ post)%list /\
    ObjectId 1 = ObjectId (task_id (mkTask 1 "Pay rent" None 1767139200000 "pending" "U1" 1000)) /\
    owner (mkTask 1 "Pay rent" None 1767139200000 "pending" "U1" 1000) = "U1" /\
    (forall x, In x pre ->
       task_id x <> task_id (mkTask 1 "Pay rent" None 1767139200000 "pending" "U1" 1000) \/
       owner x <> "U1").
Proof.
  assert (H : deleteTask (ObjectId 1) "U1" two_users_world
    = (inr (mkTask 1 "Pay rent" None 1767139200000 "pending" "U1" 1000),
       mkWorld [] {[ "tasks:U2" := ([], 3600) ]} [] [] 2 2000)) by (vm_compute; reflexivity).
  split; [exact H|]. exact (deleteTask_removes_match _ _ _ _ _ H).
Defined.

Lemma createTask_bad_date_gen nd td u w :
  parse_date nd (td_dueDate td) = None ->
  createTask nd td u w = (inl (App (ValidationError "Invalid due date format")), w).
Proof. intros H. unfold createTask, catch, throw. by rewrite H. Qed.

(** A creation whose due date is missing or does not parse is refused
    with the validation error ["Invalid due date format"] before any
    store is called: the world (repository, cache, fault oracles, id
    counter) stays as it was. *)
Theorem createTask_bad_date nd td u w :
  parse_date nd (td_dueDate td) = None ->
  createTask nd td u w = (inl (App (ValidationError "Invalid due date format")), w).
Proof. apply createTask_bad_date_gen. Qed.

Definition bad_date_task : TaskData := mkTaskData "Pay rent" None (Some "31/12/2025") None.

Lemma createTask_bad_date_witness :
  parse_date iso_date (td_dueDate bad_date_task) = None /\
  createTask iso_date bad_date_task "U1" two_users_world
  = (inl (App (ValidationError "Invalid due date format")), two_users_world).
Proof.
  assert (H : parse_date iso_date (td_dueDate bad_date_task) = None) by reflexivity.
  split; [exact H|]. exact (createTask_bad_date iso_date bad_date_task "U1" two_users_world H).
Defined.

End TaskServiceMoreFacts.

(** * Task controller

    [src/controllers/task.controller.js]: each handler calls the service
    and turns its result or error into an HTTP response. *)
Module TaskController.
Import TaskService.

(** The JSON bodies the handlers send. *)
Inductive ResBody :=
  | TasksJson (l : list Task)                  (* res.json(tasks) *)
  | TaskJson (t : Task)                        (* res.json(task) *)
  | DeletedJson (t : Task)                     (* { message: 'Task deleted successfully', task } *)
  | ErrorJson (message error : string)         (* { message, error: error.message } *)
  | ValidationErrorsJson.                      (* { errors: errors.array() } *)

Record Response := mkResponse { res_status : Z; res_body : ResBody }.

(** [error.statusCode] of what the service throws: the [ValidationError]s
    it builds get 400, [NotFoundError] 404, the duplicate [AppError] 409,
    [DatabaseError] 500; a Mongoose or driver error has none. *)
Definition statusCode_of (e : exn) : option Z :=
  match e with
  | App (ValidationError _) => Some 400
  | App (NotFoundError _) => Some 404
  | App (DuplicateTask _ _) => Some 409
  | App (DatabaseError _) => Some 500
  | MongooseValidationError | CastError | RepositoryError => None
  end.

Section Handlers.

Variable new_Date : string -> option Z.
(** [error.message] of an error the service does not build itself. *)
Variable foreign_message : exn -> string.

(** [error.message]. *)
Definition message_of (e : exn) : string :=
  match e with
  | App (ValidationError m) | App (NotFoundError m) | App (DatabaseError m) => m
  | App (DuplicateTask _ reason) =>
      if String.eqb reason "Exact task match" then "Duplicate task found"
      else "Similar task exists"
  | _ => foreign_message e
  end.

(** [exports.getTasks]. *)
Definition ctl_getTasks (userId : string) (w : World) : Response * World :=
  match getTasks userId w with
  | (inr l, w') => (mkResponse 200 (TasksJson l), w')
  | (inl e, w') => (mkResponse 500 (ErrorJson "Error fetching tasks" (message_of e)), w')
  end.


(** The [catch] of [updateTask] and [deleteTask]:
    [status = error.statusCode || 500] and
    [message = error.statusCode ? error.message : fallback]. *)
Definition error_response (fallback : string) (e : exn) : Response :=
  match statusCode_of e with
  | Some sc => mkResponse sc (ErrorJson (message_of e) (message_of e))
  | None => mkResponse 500 (ErrorJson fallback (message_of e))
  end.

(** [exports.updateTask]. *)
Definition ctl_updateTask (valid : bool) (taskId : TaskIdParam) (updates : Updates) (userId : string)
    (w : World) : Response * World :=
  if negb valid then (mkResponse 400 ValidationErrorsJson, w) else
  match updateTask new_Date taskId updates userId w with
  | (inr t, w') => (mkResponse 200 (TaskJson t), w')
  | (inl e, w') => (error_response "Error updating task" e, w')
  end.

(** [exports.deleteTask]. *)
Definition ctl_deleteTask (taskId : TaskIdParam) (userId : string) (w : World) : Response * World :=
  match deleteTask taskId userId w with
  | (inr t, w') => (mkResponse 200 (DeletedJson t), w')
  | (inl e, w') => (error_response "Error deleting task" e, w')
  end.

(** [exports.getFilteredTasks]. *)
Definition ctl_getFilteredTasks (filters : Filters) (userId : string) (w : World)
    : Response * World :=
  match getFilteredTasks new_Date filters userId w with
  | (inr l, w') => (mkResponse 200 (TasksJson l), w')
  | (inl e, w') => (mkResponse 500 (ErrorJson "Error fetching tasks" (message_of e)), w')
  end.

End Handlers.

End TaskController.

Module TaskControllerFacts.
Import TaskService TaskServiceFacts TaskController.

Definition driver_message (e : exn) : string := "connection closed".




Lemma deleteTask_errors taskId u w e :
  fst (deleteTask taskId u w) = inl e ->
  e = App (ValidationError "Invalid task ID format") \/
  e = App (NotFoundError "Task not found") \/ e = App (DatabaseError "Error deleting task").
Proof.
  destruct w as [r c cf rf n k].
  unfold deleteTask, cast_id, catch, bind, findOneAndDelete, repo_call,
    invalidateUserCache, cache_del, throw, ret. simpl.
  destruct taskId as [id|?]; simpl; [|intros H; injection H as <-; tauto].
  destruct rf as [|[] rf]; simpl; try (intros H; injection H as <-; tauto);
  destruct (delete_first _ r) as [[t0|] r']; simpl; try (intros H; injection H as <-; tauto);
  destruct cf as [|[] cf]; simpl; discriminate.
Qed.

(** [DELETE /tasks/:id] answers 200 with the deleted task, 400 with
    ["Invalid task ID format"] for an id Mongoose cannot cast, 404 with
    ["Task not found"] or 500 with ["Error deleting task"], and never
    anything else. *)
Theorem ctl_deleteTask_responses fm taskId u w :
  let r := fst (ctl_deleteTask fm taskId u w) in
  (res_status r = 200 /\ exists t, res_body r = DeletedJson t) \/
  (res_status r = 400 /\
   res_body r = ErrorJson "Invalid task ID format" "Invalid task ID format") \/
  (res_status r = 404 /\ res_body r = ErrorJson "Task not found" "Task not found") \/
  (res_status r = 500 /\ res_body r = ErrorJson "Error deleting task" "Error deleting task").
Proof.
  cbv zeta. unfold ctl_deleteTask.
  pose proof (deleteTask_errors taskId u w) as He.
  destruct (deleteTask taskId u w) as [[e|t] w'] eqn:E; simpl.
  - destruct (He e eq_refl) as [->|[->| ->]]; simpl;
      [right; left|right; right; left|right; right; right]; done.
  - left. split; [done|]. by eexists.
Qed.


Definition rent_world : World :=
  mkWorld [mkTask 1 "Pay rent" None 1767139200000 "pending" "U1" 1000] ∅ [] [] 2 2000.



(** A [PUT] or [DELETE] on [/tasks/:id] whose id Mongoose cannot cast to
    an ObjectId (for [PUT], with allowed update keys) is answered 400
    ["Invalid task ID format"] before any store is called: no route
    validator checks the id, and the service turns the CastError into a
    validation error that carries status 400. *)
Theorem ctl_malformed_id_400 nd fm s upd u w :
  (forall k, In k (map fst upd) -> In k allowedUpdates) ->
  ctl_updateTask nd fm true (MalformedId s) upd u w
    = (mkResponse 400 (ErrorJson "Invalid task ID format" "Invalid task ID format"), w) /\
  ctl_deleteTask fm (MalformedId s) u w
    = (mkResponse 400 (ErrorJson "Invalid task ID format" "Invalid task ID format"), w).
Proof.
  intros H.
  assert (Hb : forallb (fun k => existsb (String.eqb k) allowedUpdates) (map fst upd) = true).
  { apply forallb_forall. intros k Hk. apply existsb_exists. exists k.
    split; [by apply H|apply String.eqb_refl]. }
  unfold ctl_updateTask, ctl_deleteTask, updateTask, deleteTask, cast_id, catch, bind, throw.
  rewrite Hb. split; reflexivity.
Qed.

Lemma ctl_malformed_id_400_witness :
  (forall k, In k (map fst [("title", "Updated")]) -> In k allowedUpdates) /\
  ctl_updateTask iso_date driver_message true (MalformedId "invalid-id") [("title", "Updated")]
    "U1" rent_world
    = (mkResponse 400 (ErrorJson "Invalid task ID format" "Invalid task ID format"), rent_world) /\
  ctl_deleteTask driver_message (MalformedId "invalid-id") "U1" rent_world
    = (mkResponse 400 (ErrorJson "Invalid task ID format" "Invalid task ID format"), rent_world).
Proof.
  assert (H : forall k, In k (map fst [("title", "Updated")]) -> In k allowedUpdates).
  { simpl. intros k [<-|[]]. left. reflexivity. }
  split; [exact H|].
  exact (ctl_malformed_id_400 iso_date driver_message "invalid-id" _ "U1" rent_world H).
Defined.

(** A filter request whose due date is non-empty but does not parse,
    with no status filter or a valid one, is answered 500
    ["Error fetching tasks"] with error ["Invalid due date format"] (the
    service's 400 validation error is not used), and no store is
    called. *)
Theorem ctl_filter_bad_date_500 nd fm filters u w :
  (truthy (f_status filters) = false \/
   existsb (String.eqb (or_default (f_status filters) "")) ["pending"; "completed"] = true) ->
  truthy (f_dueDate filters) = true -> parse_date nd (f_dueDate filters) = None ->
  ctl_getFilteredTasks nd fm filters u w
  = (mkResponse 500 (ErrorJson "Error fetching tasks" "Invalid due date format"), w).
Proof.
  intros Hs Hd Hp. unfold ctl_getFilteredTasks, getFilteredTasks, catch, bind, throw.
  assert (Hc : (truthy (f_status filters) &&
     negb (existsb (String.eqb (or_default (f_status filters) "")) ["pending"; "completed"])) = false).
  { destruct Hs as [-> | ->]; [done|]. by rewrite andb_false_r. }
  rewrite Hc, Hd, Hp. reflexivity.
Qed.

Definition bad_date_filter : Filters := mkFilters (Some "pending") (Some "tomorrow").

Lemma ctl_filter_bad_date_500_witness :
  (truthy (f_status bad_date_filter) = false \/
   existsb (String.eqb (or_default (f_status bad_date_filter) "")) ["pending"; "completed"] = true) /\
  truthy (f_dueDate bad_date_filter) = true /\ parse_date iso_date (f_dueDate bad_date_filter) = None /\
  ctl_getFilteredTasks iso_date driver_message bad_date_filter "U1" rent_world
  = (mkResponse 500 (ErrorJson "Error fetching tasks" "Invalid due date format"), rent_world).
Proof.
  assert (H1 : truthy (f_status bad_date_filter) = false \/
   existsb (String.eqb (or_default (f_status bad_date_filter) "")) ["pending"; "completed"] = true)
    by (right; reflexivity).
  assert (H3 : parse_date iso_date (f_dueDate bad_date_filter) = None) by reflexivity.
  split; [exact H1|]. split; [reflexivity|]. split; [exact H3|].
  exact (ctl_filter_bad_date_500 iso_date driver_message bad_date_filter "U1" rent_world H1 eq_refl H3).
Defined.

End TaskControllerFacts.
